(** * SCMEFitting: parameter fitting engine, dataset loader and output helpers

    A shallow embedding of [scme_fitting] (fitter.py, scme_objective_function.py,
    data_utils.py, utils.py) and the properties its specification states.

    Python dictionaries keep their insertion order and compare with [==]
    regardless of it.  Both facts matter here (the fitter captures a key order,
    the specification talks about reordering), so a dictionary is an
    association list in insertion order with the operations of [dict] written
    out, and [==] is a separate boolean function. *)

From Stdlib Require Import QArith Qcanon Ascii.
From stdpp Require Import base option list strings numbers gmap pretty.

Open Scope string_scope.
Open Scope list_scope.
Open Scope nat_scope.

(** ** Python dictionaries *)

Section dict.
Context {K : Type} `{EqDecision K} {X : Type}.

(** [d.get(k)] *)
Fixpoint dict_get (d : list (K * X)) (k : K) : option X :=
  match d with
  | [] => None
  | (k', x) :: d' => if decide (k = k') then Some x else dict_get d' k
  end.

(** [d.get(k, default)] *)
Definition dict_get_default (d : list (K * X)) (k : K) (default : X) : X :=
  match dict_get d k with
  | Some x => x
  | None => default
  end.

(** [d[k] = x]: an existing key keeps its position, a new key goes last. *)
Fixpoint dict_set (d : list (K * X)) (k : K) (x : X) : list (K * X) :=
  match d with
  | [] => [(k, x)]
  | (k', x') :: d' =>
      if decide (k = k') then (k, x) :: d' else (k', x') :: dict_set d' k x
  end.

(** [d.keys()] *)
Definition dict_keys (d : list (K * X)) : list K := d.*1.

(** [dict(pairs)] *)
Definition dict_of_pairs (l : list (K * X)) : list (K * X) :=
  fold_left (fun d kx => dict_set d kx.1 kx.2) l [].
End dict.

(** ** Nested parameter mappings *)

(** A numeric scalar.  Python floats are represented by rationals in lowest
    terms, so that equality of scalars is equality of their values; the
    properties below move scalars around and never depend on rounding. *)
Definition scalar : Type := Qc.

(** A nested mapping: a tree whose inner nodes are dictionaries keyed by
    strings. *)
#[warnings="-register-all"] Inductive nested (A : Type) : Type :=
  | Leaf (a : A)
  | Dict (items : list (string * nested A)).
Arguments Leaf {A} a.
Arguments Dict {A} items.

(** The top level of a parameter or bounds mapping is always a dictionary. *)
Abbreviation pydict A := (list (string * nested A)).

(** A flat key is the sequence of path segments leading to a leaf (the
    specification writes it [group.name]). *)
Abbreviation flat_key := (list string).

(** A flat dictionary: flat keys to leaves, in order. *)
Abbreviation flat_dict A := (list (flat_key * A)).

Section nested_ops.
Context {A : Type}.

(** Modelled from the spec: [flatten_dict] of the package [pydictnest],
    which is imported by fitter.py and is not part of the sources.  Depth
    first traversal in insertion order, one entry per scalar leaf, keyed by
    the path segments from the root. *)
Fixpoint flatten_at (prefix : flat_key) (t : nested A) : flat_dict A :=
  match t with
  | Leaf a => [(prefix, a)]
  | Dict items =>
      flat_map (fun kc => flatten_at (prefix ++ [kc.1])%list kc.2) items
  end.

Definition flatten_dict (d : pydict A) : flat_dict A := flatten_at [] (Dict d).

(** The sub-dictionary found under [k], or a fresh one. *)
Definition sub_dict (d : pydict A) (k : string) : pydict A :=
  match dict_get d k with
  | Some (Dict sub) => sub
  | _ => []
  end.

(** Modelled from the spec: the insertion of one leaf at a path, creating
    the intermediate dictionaries on the way ([pydictnest] again).  The
    specification fixes the behaviour on the output of [flatten_dict] only;
    on a path that runs through an existing leaf this model replaces the
    leaf by a dictionary, and an empty path changes nothing. *)
Fixpoint set_nested (d : pydict A) (p : flat_key) (a : A) : pydict A :=
  match p with
  | [] => d
  | k :: p' =>
      match p' with
      | [] => dict_set d k (Leaf a)
      | _ :: _ => dict_set d k (Dict (set_nested (sub_dict d k) p' a))
      end
  end.

(** The insertion of the entries of a flat dictionary, one by one, in order. *)
Definition insert_all (d : pydict A) (fd : flat_dict A) : pydict A :=
  fold_left (fun d pa => set_nested d pa.1 pa.2) fd d.

(** Modelled from the spec: [unflatten_dict] of [pydictnest], the inverse
    of [flatten_dict]: the entries are inserted into a fresh dictionary. *)
Definition unflatten_dict (fd : flat_dict A) : pydict A := insert_all [] fd.

(** One more segment in front of a flat key. *)
Definition under (k : string) (e : flat_key * A) : flat_key * A :=
  (k :: e.1, e.2).

(** The entry of a flat dictionary seen from below the key [k], if it
    lies there. *)
Definition below (k : string) (e : flat_key * A) : option (flat_key * A) :=
  match e.1 with
  | k' :: q => if decide (k' = k) then Some (q, e.2) else None
  | [] => None
  end.

(** What makes the association lists dictionaries: no key occurs twice in
    any of them. *)
Fixpoint unique_keys (t : nested A) : bool :=
  match t with
  | Leaf _ => true
  | Dict items =>
      bool_decide (NoDup items.*1)
      && forallb (fun kc => unique_keys kc.2) items
  end.

(** A nested mapping all of whose leaves are scalars: keys are unique in
    every dictionary (they are dictionaries) and no inner dictionary is
    empty (an empty dictionary would be a leaf that is not a scalar). *)
Fixpoint valid_nested (t : nested A) : bool :=
  match t with
  | Leaf _ => true
  | Dict items =>
      negb (Nat.eqb (length items) 0)
      && bool_decide (NoDup items.*1)
      && forallb (fun kc => valid_nested kc.2) items
  end.

Definition valid_dict (d : pydict A) : bool :=
  bool_decide (NoDup d.*1) && forallb (fun kc => valid_nested kc.2) d.
End nested_ops.

(** Python's [==] on nested mappings: same keys, equal values, insertion
    order ignored. *)
Fixpoint nested_eqb {A : Type} `{EqDecision A} (t u : nested A) : bool :=
  match t, u with
  | Leaf a, Leaf b => bool_decide (a = b)
  | Dict items, Dict items' =>
      Nat.eqb (length items) (length items')
      && forallb (fun kc =>
                    match dict_get items' kc.1 with
                    | Some c' => nested_eqb kc.2 c'
                    | None => false
                    end) items
  | _, _ => false
  end.

Definition dict_eqb {A : Type} `{EqDecision A} (d d' : pydict A) : bool :=
  nested_eqb (Dict d) (Dict d').

(** ** Exceptions and logging *)

Inductive Exception : Type :=
  | KeyError (what : string)
  | ValueError (what : string)
  | TypeError (what : string)
  | AttributeError (what : string)
  | OSError (what : string).

#[global] Instance Exception_eq_dec : EqDecision Exception.
Proof. solve_decision. Defined.

(** A bound: [(lower, upper)], each possibly [None]. *)
Definition bound : Type := option scalar * option scalar.

Inductive LogLevel : Type := INFO | WARNING.

(** The messages of fitter.py, with the values they interpolate.  The clock
    readings of [time.time()] are not modelled. *)
Inductive LogMessage : Type :=
  | StartFitting
  | InitialParameters (p : pydict scalar)
  | Bounds (b : pydict bound)
  | InitialObjFunc (v : scalar)
  | EndFitting
  | FinalObjectiveFunction (v : scalar)
  | OptimalParameters (p : pydict scalar)
  | TimeTaken
  | FitDidNotConverge (message : string).

Definition LogRecord : Type := LogLevel * LogMessage.

(** Computations that log and may raise. *)
Definition M (A : Type) : Type := (Exception + A) * list LogRecord.

Definition ret {A} (a : A) : M A := (inr a, []).

Definition raise {A} (e : Exception) : M A := (inl e, []).

Definition bind {A B} (m : M A) (f : A -> M B) : M B :=
  match m with
  | (inl e, l) => (inl e, l)
  | (inr a, l) => let (r, l') := f a in (r, (l ++ l')%list)
  end.

Notation "x <- m ;; k" := (bind m (fun x => k))
  (at level 100, m at next level, right associativity).
Notation "m ;;; k" := (bind m (fun _ => k))
  (at level 100, right associativity).

Definition logger_info (msg : LogMessage) : M unit := (inr tt, [(INFO, msg)]).
Definition logger_warning (msg : LogMessage) : M unit := (inr tt, [(WARNING, msg)]).

Fixpoint mapM {A B} (f : A -> M B) (l : list A) : M (list B) :=
  match l with
  | [] => ret []
  | a :: l' => b <- f a ;; bs <- mapM f l' ;; ret (b :: bs)
  end.

(** [d[k]] on a flat dictionary. *)
Definition flat_getitem {A} (d : flat_dict A) (k : flat_key) : M A :=
  match dict_get d k with
  | Some a => ret a
  | None => raise (KeyError (String.concat "." k))
  end.

(** ** fitter.py *)

(** The result object of [scipy.optimize.minimize]. *)
Record OptimizeResult : Type := {
  res_x : list scalar;
  res_success : bool;
  res_message : string;
}.

(** [scipy.optimize.minimize(fun, x0, bounds=bounds, **kwargs)] with the
    keyword arguments of the call fixed.  The keyword arguments select the
    algorithm ([method] may even be a callable of the caller), so the backend
    is a parameter of the model.  It stands for the call together with the
    [np.array] that [fit_scipy] wraps around its arguments: the model hands
    over the lists, and the conversion to an array, which gives all
    coordinates one number type (an integer leaf next to a float becomes a
    float and may be rounded), is on the side of the backend. *)
Definition Minimize : Type :=
  (list scalar -> scalar) -> list scalar -> option (list bound) -> OptimizeResult.

(** The attributes of a [Fitter].  The objective is a function of the nested
    parameters; an objective that raises is not modelled here. *)
Record Fitter : Type := {
  objective_function : pydict scalar -> scalar;
  initial_parameters : pydict scalar;
  bounds : pydict bound;
}.

(** [Fitter.__init__] *)
Definition Fitter_init (objective_function : pydict scalar -> scalar)
    (initial_params : pydict scalar) (bounds : option (pydict bound)) : Fitter :=
  {| objective_function := objective_function;
     initial_parameters := initial_params;
     bounds := match bounds with None => [] | Some b => b end |}.

Definition hook_pre_fit (self : Fitter) : M unit :=
  logger_info StartFitting ;;;
  logger_info (InitialParameters (initial_parameters self)) ;;;
  logger_info (Bounds (bounds self)) ;;;
  let ob_init := objective_function self (initial_parameters self) in
  logger_info (InitialObjFunc ob_init).

Definition hook_post_fit (self : Fitter) (opt_params : pydict scalar) : M unit :=
  logger_info EndFitting ;;;
  logger_info (FinalObjectiveFunction (objective_function self opt_params)) ;;;
  logger_info (OptimalParameters opt_params) ;;;
  logger_info TimeTaken.

(** [self._keys]: assigned once in [fit_scipy] and only read afterwards. *)
Definition scipy_keys (self : Fitter) : list flat_key :=
  dict_keys (flatten_dict (initial_parameters self)).

(** [x0 = np.array([flat_params[k] for k in self._keys])]: the list that
    [np.array] is given, see [Minimize]. *)
Definition scipy_x0 (self : Fitter) : M (list scalar) :=
  mapM (flat_getitem (flatten_dict (initial_parameters self))) (scipy_keys self).

(** [bounds = np.array([flat_bounds.get(k, (None, None)) for k in self._keys])],
    replaced by [None] when it is empty; the list that [np.array] is given,
    see [Minimize]. *)
Definition scipy_bounds (self : Fitter) : option (list bound) :=
  let flat_bounds := flatten_dict (bounds self) in
  let bounds := map (fun k => dict_get_default flat_bounds k (None, None))
                    (scipy_keys self) in
  if Nat.eqb (length bounds) 0 then None else Some bounds.

(** The local function [f_scipy] of [fit_scipy]; [zip] stops at the shorter
    of its arguments. *)
Definition f_scipy (self : Fitter) (x : list scalar) : scalar :=
  let p := unflatten_dict (dict_of_pairs (zip (scipy_keys self) x)) in
  objective_function self p.

Definition fit_scipy (minimize : Minimize) (self : Fitter) : M (pydict scalar) :=
  hook_pre_fit self ;;;
  x0 <- scipy_x0 self ;;
  let bounds := scipy_bounds self in
  let res := minimize (f_scipy self) x0 bounds in
  (if negb (res_success res)
   then logger_warning (FitDidNotConverge (res_message res))
   else ret tt) ;;;
  let opt_params := dict_of_pairs (zip (scipy_keys self) (res_x res)) in
  let opt_params := unflatten_dict opt_params in
  hook_post_fit self opt_params ;;;
  ret opt_params.

(** The records a run of [fit_scipy] logs, given the result [res] of the
    backend and the parameters [opt] it returns. *)
Definition fit_log (self : Fitter) (res : OptimizeResult) (opt : pydict scalar)
    : list LogRecord :=
  [(INFO, StartFitting);
   (INFO, InitialParameters (initial_parameters self));
   (INFO, Bounds (bounds self));
   (INFO, InitialObjFunc (objective_function self (initial_parameters self)))]
  ++ (if res_success res then []
      else [(WARNING, FitDidNotConverge (res_message res))])
  ++ [(INFO, EndFitting);
      (INFO, FinalObjectiveFunction (objective_function self opt));
      (INFO, OptimalParameters opt);
      (INFO, TimeTaken)].

(** [bounds_for]: the bound of a flat key, [(None, None)] when it has none. *)
Definition bounds_for (flat_bounds : flat_dict bound) (k : flat_key) : bound :=
  dict_get_default flat_bounds k (None, None).

(** ** Reordering of the coordinates *)

(** Two vectors [x] and [x'], whose coordinates are labelled by [ks] and
    [ks'], are the same labelled vector up to the order of the coordinates. *)
Definition aligned {K X : Type} (ks ks' : list K) (x x' : list X) : Prop :=
  length x = length ks ∧ length x' = length ks' ∧ zip ks x ≡ₚ zip ks' x'.

Definition aligned_bounds {K : Type} (ks ks' : list K)
    (b b' : option (list bound)) : Prop :=
  match b, b' with
  | None, None => True
  | Some l, Some l' => aligned ks ks' l l'
  | _, _ => False
  end.

(** A backend commutes with reordering the coordinates: on two problems
    that are the same up to the order of the coordinates (starting points,
    bounds and objectives), whatever the coordinates are called, its results
    are the same up to that order. *)
Definition permutation_equivariant (minimize : Minimize) : Prop :=
  ∀ (K : Type) (ks ks' : list K) (f f' : list scalar → scalar)
    (x0 x0' : list scalar) (b b' : option (list bound)),
    NoDup ks →
    aligned ks ks' x0 x0' →
    aligned_bounds ks ks' b b' →
    (∀ x x', aligned ks ks' x x' → f x = f' x') →
    aligned ks ks' (res_x (minimize f x0 b)) (res_x (minimize f' x0' b')).

(** The objective does not look at the insertion order of its argument. *)
Definition order_insensitive (objective : pydict scalar → scalar) : Prop :=
  ∀ p q, valid_dict p = true → valid_dict q = true →
         dict_eqb p q = true → objective p = objective q.

(** The fits from [init] and from [init'] return equal parameters. *)
Definition same_optimum (minimize : Minimize)
    (objective : pydict scalar → scalar) (bounds : option (pydict bound))
    (init init' : pydict scalar) : Prop :=
  ∃ opt opt',
    (fit_scipy minimize (Fitter_init objective init bounds)).1 = inr opt
    ∧ (fit_scipy minimize (Fitter_init objective init' bounds)).1 = inr opt'
    ∧ dict_eqb opt opt' = true.

(** ** scme_objective_function.py *)

(** The exception of [SCMEParameterApplier.__call__]. *)
Definition key_error (key : string) : Exception :=
  KeyError ("Cannot set parameter '" +:+ key +:+
            "': not a valid attribute on the SCME potential.").

(** An attribute of the SCME potential.  [hasattr] and [setattr] go by the
    name alone, and a Python object answers to more names than its
    parameters: its methods, the attributes of its class and the special
    names every object has ([__doc__], [__class__], ...). *)
Inductive Attribute (V : Type) : Type :=
  | Param (value : V)
  | Member (assigned : option V).
Arguments Param {V} value.
Arguments Member {V} assigned.

(** [atoms.calc.scme]: what the object has under each name, and the
    exception with which it refuses the assignment of a value to a name, if
    it does: [TypeError] for [__class__], [AttributeError] for an attribute
    that is read-only, [TypeError] for a value that a typed field does not
    take.  Whether an assignment is refused is a matter of the class of the
    object, of the name and of the value, not of the values the object
    holds.
    - [Param value]: a field of the parameter surface and the value it
      holds;
    - [Member assigned]: any other attribute, and the value an assignment has
      put in its place on the object, if one has. *)
Record Potential (V : Type) : Type := {
  attributes : gmap string (Attribute V);
  refuses : string → V → option Exception;
}.
Arguments attributes {V} _.
Arguments refuses {V} _ _ _.

Section applier.
Context {V : Type}.

(** [hasattr(atoms.calc.scme, key)]: true for whatever the object has under
    the name, parameter or not.  (An attribute whose reading raises something
    else than [AttributeError] is not modelled.) *)
Definition hasattr (scme : Potential V) (key : string) : bool :=
  bool_decide (is_Some (attributes scme !! key)).

(** [getattr(atoms.calc.scme, key)], as far as it is a value that was a
    parameter or was assigned. *)
Definition getattr (scme : Potential V) (key : string) : option V :=
  match attributes scme !! key with
  | Some (Param value) => Some value
  | Some (Member assigned) => assigned
  | None => None
  end.

(** What an accepted assignment leaves under a name: a parameter takes the
    value, anything else is overlaid by it on the object. *)
Definition assigned_to (old : option (Attribute V)) (value : V) : Attribute V :=
  match old with
  | Some (Param _) => Param value
  | Some (Member _) | None => Member (Some value)
  end.

(** The potential after an accepted assignment: it holds the value as
    given (an attribute that converts what it is given is not modelled). *)
Definition store (scme : Potential V) (key : string) (value : V) : Potential V :=
  {| attributes := <[key := assigned_to (attributes scme !! key) value]>
                     (attributes scme);
     refuses := refuses scme |}.

(** [setattr(atoms.calc.scme, key, value)]: raises what the object refuses
    the assignment with, and assigns otherwise. *)
Definition setattr (scme : Potential V) (key : string) (value : V)
    : Exception + Potential V :=
  match refuses scme key value with
  | Some e => inl e
  | None => inr (store scme key value)
  end.

(** [SCMEParameterApplier.__call__]: the loop over [params.items()].  The
    potential is mutated in place, so the state reached is returned next to
    the exception, if any: the [KeyError] of the guard or whatever [setattr]
    raises. *)
Fixpoint SCMEParameterApplier_call (scme : Potential V)
    (params : list (string * V)) : option Exception * Potential V :=
  match params with
  | [] => (None, scme)
  | (key, value) :: rest =>
      if hasattr scme key
      then match setattr scme key value with
           | inl e => (Some e, scme)
           | inr scme' => SCMEParameterApplier_call scme' rest
           end
      else (Some (key_error key), scme)
  end.

(** The potential after the assignments of [params], in order, all of them
    accepted. *)
Definition setattr_all (scme : Potential V) (params : list (string * V))
    : Potential V :=
  fold_left (fun scme kv => store scme kv.1 kv.2) params scme.
End applier.





(** ** pathlib *)

(** A path: whether it is anchored at the root, and its components.
    [Path(".")] has no component. *)
Record Path : Type := {
  absolute : bool;
  parts : list string;
}.

#[global] Instance Path_eq_dec : EqDecision Path.
Proof. solve_decision. Defined.

(** [p.name]: the final component, or the empty string. *)
Definition name (p : Path) : string := default "" (last (parts p)).

(** [p.parent] *)
Definition parent (p : Path) : Path :=
  {| absolute := absolute p; parts := removelast (parts p) |}.

(** [a / b]: an absolute right operand replaces the left one. *)
Definition joinpath (a b : Path) : Path :=
  if absolute b then b
  else {| absolute := absolute a; parts := (parts a ++ parts b)%list |}.

(** [p.with_name(n)]: raises [ValueError] on a path that has no name.
    (pathlib also rejects a new name that is empty, is [.] or contains a
    separator; the names built below extend an existing name and pass.) *)
Definition with_name (p : Path) (n : string) : Exception + Path :=
  if decide (name p = "") then inl (ValueError "has an empty name")
  else inr {| absolute := absolute p; parts := (removelast (parts p) ++ [n])%list |}.

(** ** data_utils.py *)

(** A cell of a data frame: text or a number. *)
Inductive Cell : Type :=
  | CStr (s : string)
  | CNum (x : scalar).

(** Whether a cell holds text. *)
Definition is_text (c : Cell) : bool :=
  match c with
  | CStr _ => true
  | CNum _ => false
  end.

(** A data frame: its columns in order, by name. *)
Definition DataFrame : Type := list (string * list Cell).

(** [df[c]] *)
Definition df_getitem (df : DataFrame) (c : string) : Exception + list Cell :=
  match dict_get df c with
  | Some col => inr col
  | None => inl (KeyError c)
  end.

(** What [process_csv] takes from its environment: the CSV reader of pandas,
    the parser of [Path(...)] and [Path.resolve], which reads the working
    directory and the links of the file system. *)
Record Env : Type := {
  read_csv : Path -> Exception + DataFrame;
  Path_of_str : string -> Path;
  resolve : Path -> Path;
}.

(** [Path(p)] on a cell: only text is accepted. *)
Definition Path_of_cell (env : Env) (c : Cell) : Exception + Path :=
  match c with
  | CStr s => inr (Path_of_str env s)
  | CNum _ => inl (TypeError "expected str, bytes or os.PathLike object")
  end.

(** The list comprehensions of [process_csv]: left to right, stopping at the
    first exception. *)
Fixpoint traverse {A B} (f : A -> Exception + B) (l : list A)
    : Exception + list B :=
  match l with
  | [] => inr []
  | a :: l' =>
      match f a with
      | inl e => inl e
      | inr b =>
          match traverse f l' with
          | inl e => inl e
          | inr bs => inr (b :: bs)
          end
      end
  end.

Definition process_csv (env : Env) (path_to_csv : Path)
    : Exception + (list Path * list Cell * list Cell) :=
  match read_csv env path_to_csv with
  | inl e => inl e
  | inr df =>
      let paths :=
        if bool_decide ("path" ∈ dict_keys df) then
          match df_getitem df "path" with
          | inl e => inl e
          | inr col => traverse (Path_of_cell env) col
          end
        else
          let base := resolve env (parent path_to_csv) in
          match df_getitem df "file" with
          | inl e => inl e
          | inr col =>
              traverse (fun fname =>
                          match Path_of_cell env fname with
                          | inl e => inl e
                          | inr f => inr (joinpath base f)
                          end) col
          end in
      match paths with
      | inl e => inl e
      | inr paths =>
          match df_getitem df "tag" with
          | inl e => inl e
          | inr tags =>
              match df_getitem df "reference_energy" with
              | inl e => inl e
              | inr energies => inr (paths, tags, energies)
              end
          end
      end
  end.

(** The column [process_csv] takes the paths from. *)
Definition path_column (df : DataFrame) : string :=
  if bool_decide ("path" ∈ dict_keys df) then "path" else "file".

(** What [process_csv] makes of one cell of that column. *)
Definition cell_to_path (env : Env) (path_to_csv : Path) (df : DataFrame)
    (c : Cell) : Exception + Path :=
  if bool_decide ("path" ∈ dict_keys df) then Path_of_cell env c
  else match Path_of_cell env c with
       | inl e => inl e
       | inr f => inr (joinpath (resolve env (parent path_to_csv)) f)
       end.

(** ** utils.py *)

(** What a directory holds under a name, as [os.stat] finds it when it
    follows symbolic links. *)
Inductive Entry : Type :=
  | Reachable
  | DanglingLink.

#[global] Instance Entry_eq_dec : EqDecision Entry.
Proof. solve_decision. Defined.

(** The file system, as far as [next_free_folder] looks at it: the paths
    under which there is an entry (finitely many: the helper asks about the
    base and about names next to it, and a directory holds finitely many
    entries), and the error with which [os.stat] fails on a path for another
    reason than a missing entry, if it does (permission denied on a directory
    of the path, a name that is too long, ...).
    - [Reachable]: a file, a directory, or a symbolic link that leads to
      one;
    - [DanglingLink]: a symbolic link whose target is missing, or that
      closes a loop of links. *)
Record FileSystem : Type := {
  entries : list (Path * Entry);
  stat_error : Path → option Exception;
}.

(** Whether a directory has an entry under the name of the path, whatever
    the entry is ([os.path.lexists]). *)
Definition is_entry (fs : FileSystem) (p : Path) : bool :=
  bool_decide (p ∈ (entries fs).*1).

(** [p.exists()]: [Path.exists] calls [os.stat], which follows symbolic
    links; it answers [False] when [stat] finds nothing (no entry, or a link
    that leads nowhere) and lets any other error of [stat] through.  (Under
    an interpreter whose [Path.exists] answers [False] on those errors as
    well, [stat_error] gives none, and what [stat] cannot reach is not
    [Reachable].) *)
Definition path_exists (fs : FileSystem) (p : Path) : Exception + bool :=
  match stat_error fs p with
  | Some e => inl e
  | None => inr (bool_decide ((p, Reachable) ∈ entries fs))
  end.

(** [base.with_name(f"{base.name}_{i}")] *)
Definition candidate (base : Path) (i : nat) : Exception + Path :=
  with_name base (name base +:+ "_" +:+ pretty i).

(** What candidate number [i] is when the base has a name. *)
Definition sibling (base : Path) (i : nat) : Path :=
  {| absolute := absolute base;
     parts := removelast (parts base) ++ [name base +:+ "_" +:+ pretty i] |}.

(** The [while True] loop of [next_free_folder], from counter [i]; [None]
    when the fuel runs out before the loop returns. *)
Fixpoint next_free_folder_loop (fs : FileSystem) (base : Path) (fuel i : nat)
    : option (Exception + Path) :=
  match fuel with
  | 0 => None
  | S fuel' =>
      match candidate base i with
      | inl e => Some (inl e)
      | inr c =>
          match path_exists fs c with
          | inl e => Some (inl e)
          | inr found =>
              if negb found then Some (inr c)
              else next_free_folder_loop fs base fuel' (S i)
          end
      end
  end.

Definition next_free_folder (fs : FileSystem) (fuel : nat) (base : Path)
    : option (Exception + Path) :=
  match path_exists fs base with
  | inl e => Some (inl e)
  | inr found =>
      if negb found then Some (inr base)
      else next_free_folder_loop fs base fuel 0
  end.

(** The dictionary comprehension of [create_initial_params],
    [{k: dict(default_params)[k] for k in adjustable_params}], from the
    dictionary [acc] built so far: a name that is missing from the defaults
    raises [KeyError], a name that comes twice is set twice. *)
Fixpoint create_initial_params_from {V : Type} (acc : list (string * V))
    (adjustable_params : list string) (default_params : list (string * V))
    : Exception + list (string * V) :=
  match adjustable_params with
  | [] => inr acc
  | k :: rest =>
      match dict_get (dict_of_pairs default_params) k with
      | Some v => create_initial_params_from (dict_set acc k v) rest default_params
      | None => inl (KeyError k)
      end
  end.

Definition create_initial_params {V : Type} (adjustable_params : list string)
    (default_params : list (string * V)) : Exception + list (string * V) :=
  create_initial_params_from [] adjustable_params default_params.

(** ** Concrete data *)

Module Example.
(** [params[k]] for a scalar parameter (0 when it is missing). *)
Definition param (p : pydict scalar) (k : string) : scalar :=
  match dict_get p k with
  | Some (Leaf v) => v
  | _ => Qc_of_Z 0
  end.

(** The objective of the docstring of [fit_scipy]:
    [2.0 * (params["x"] - 2) ** 2 + 3.0 * (params["y"] + 1) ** 2]. *)
Definition objective (p : pydict scalar) : scalar :=
  (Qc_of_Z 2 * ((param p "x" - Qc_of_Z 2) * (param p "x" - Qc_of_Z 2))
   + Qc_of_Z 3 * ((param p "y" + Qc_of_Z 1) * (param p "y" + Qc_of_Z 1)))%Qc.

Definition xy : pydict scalar :=
  [("x", Leaf (Qc_of_Z 0)); ("y", Leaf (Qc_of_Z 0))].

Definition yx : pydict scalar :=
  [("y", Leaf (Qc_of_Z 0)); ("x", Leaf (Qc_of_Z 0))].

Definition grouped : pydict scalar :=
  [("dispersion", Dict [("C6", Leaf (Qc_of_Z 1)); ("C8", Leaf (Qc_of_Z 2))]);
   ("td", Leaf (Qc_of_Z 3))].

Definition x_bounds : pydict bound :=
  [("x", Leaf (Some (Qc_of_Z 0), Some (Qc_of_Z 5)));
   ("z", Leaf (None, Some (Qc_of_Z 1)))].

(** A backend that stops before its first iteration ([maxiter=0]): it
    reports its starting point and no success. *)
Definition no_iteration : Minimize := fun _ x0 _ =>
  {| res_x := x0; res_success := false;
     res_message := "Maximum number of iterations has been exceeded." |}.

Definition fitter : Fitter := Fitter_init objective xy (Some x_bounds).

(** A backend that tries one unit step along the first coordinate and
    keeps it when the objective decreases. *)
Definition first_coordinate_step : Minimize := fun f x0 _ =>
  match x0 with
  | [] => {| res_x := []; res_success := true; res_message := "" |}
  | x :: rest =>
      let x1 := (x + Qc_of_Z 1)%Qc :: rest in
      {| res_x := if bool_decide (f x1 < f x0)%Qc then x1 else x0;
         res_success := true; res_message := "" |}
  end.

(** A backend that tries one unit step along all coordinates at once and
    keeps it when the objective decreases. *)
Definition uniform_step : Minimize := fun f x0 _ =>
  let x1 := (fun x => (x + Qc_of_Z 1)%Qc) <$> x0 in
  {| res_x := if bool_decide (f x1 < f x0)%Qc then x1 else x0;
     res_success := true; res_message := "" |}.

(** What an object of an ordinary Python class refuses when the value is a
    float: [__class__] takes a class and [__dict__] a dictionary. *)
Definition plain_object (key : string) (value : nested scalar)
    : option Exception :=
  if decide (key = "__class__")
  then Some (TypeError "__class__ must be set to a class, not 'float' object")
  else if decide (key = "__dict__")
  then Some (TypeError "__dict__ must be set to a dictionary, not a 'float'")
  else None.

(** A potential with the parameters [td] and [te] next to the special names
    every object has, and a mapping that names [C6], which the potential does
    not have. *)
Definition potential : Potential (nested scalar) :=
  {| attributes :=
       <["td" := Param (Leaf (Qc_of_Z 4))]>
         (<["te" := Param (Leaf (Qc_of_Z 1))]>
            (<["__doc__" := Member None]> (<["__class__" := Member None]> ∅)));
     refuses := plain_object |}.


Definition with_unknown : pydict scalar :=
  [("td", Leaf (Qc_of_Z 5)); ("C6", Leaf (Qc_of_Z 7)); ("te", Leaf (Qc_of_Z 2))].


Definition with_class : pydict scalar :=
  [("__class__", Leaf (Qc_of_Z 1)); ("C6", Leaf (Qc_of_Z 7))].

(** A table next to which the files [a.xyz] and [b.xyz] lie, and a second
    one that also has a [path] column. *)
Definition file_table : DataFrame :=
  [("file", [CStr "a.xyz"; CStr "b.xyz"]);
   ("tag", [CStr "dimer"; CStr "trimer"]);
   ("reference_energy", [CNum (Qc_of_Z 1); CNum (Qc_of_Z 2)])].

Definition both_table : DataFrame :=
  ("path", [CStr "data/a.xyz"; CStr "data/b.xyz"]) :: file_table.

(** The components of a text between its [/]; [cur] is the component
    being read. *)
Fixpoint split_slash (s cur : string) : list string :=
  match s with
  | EmptyString => [cur]
  | String c s' =>
      if Ascii.eqb c "/"%char then cur :: split_slash s' ""
      else split_slash s' (cur +:+ String c "")
  end.

(** A parser of POSIX paths: rooted when the text starts with [/]; empty
    components and [.] are dropped. *)
Definition parse (s : string) : Path :=
  {| absolute := match s with String c _ => Ascii.eqb c "/"%char | _ => false end;
     parts := filter (fun c => c ≠ "" ∧ c ≠ ".") (split_slash s "") |}.

(** A reader that finds [both_table] at [both.csv] and [file_table]
    elsewhere, in a working directory where nothing needs resolving. *)
Definition env : Env :=
  {| read_csv := fun p =>
       if decide (name p = "both.csv") then inr both_table else inr file_table;
     Path_of_str := parse;
     resolve := fun p => p |}.

Definition csv : Path := {| absolute := false; parts := ["tests"; "energies.csv"] |}.
Definition both_csv : Path := {| absolute := false; parts := ["tests"; "both.csv"] |}.

(** The working directory, [Path(".")], and an output directory. *)
Definition here : Path := {| absolute := false; parts := [] |}.
Definition out : Path := {| absolute := false; parts := ["out"] |}.
Definition out_n (i : nat) : Path :=
  {| absolute := false; parts := ["out_" +:+ pretty i] |}.

(** A working directory that holds [out], [out_0] and [out_1]. *)
Definition output_folders : FileSystem :=
  {| entries := [(out, Reachable); (out_n 0, Reachable); (out_n 1, Reachable)];
     stat_error := fun _ => None |}.

(** An empty working directory: [Path(".")] is there. *)
Definition empty_folder : FileSystem :=
  {| entries := [(here, Reachable)]; stat_error := fun _ => None |}.

(** A working directory where [out] is a symbolic link to something that
    has been removed. *)
Definition dangling_out : FileSystem :=
  {| entries := [(out, DanglingLink)]; stat_error := fun _ => None |}.

(** A path as text. *)
Definition render (p : Path) : string :=
  (if absolute p then "/" else "") +:+ String.concat "/" (parts p).

(** A working directory that holds a folder whose name has 254 letters, on
    a file system that takes names of up to 255: [os.stat] fails on a longer
    one. *)
Definition long_base : Path :=
  {| absolute := false;
     parts := [String.concat "" (replicate 254 "b")] |}.

Definition name_limit : FileSystem :=
  {| entries := [(long_base, Reachable)];
     stat_error := fun p =>
       if decide (255 < String.length (name p))
       then Some (OSError ("[Errno 36] File name too long: '"
                           +:+ render p +:+ "'"))
       else None |}.

(** The default parameters of a potential and the names to adjust. *)
Definition defaults : pydict scalar :=
  [("td", Leaf (Qc_of_Z 4)); ("te", Leaf (Qc_of_Z 1)); ("C6", Leaf (Qc_of_Z 7))].

Definition adjustable : list string := ["te"; "td"].

(** A potential that has all the default parameters. *)
Definition full_potential : Potential (nested scalar) :=
  {| attributes := <["C6" := Param (Leaf (Qc_of_Z 0))]> (attributes potential);
     refuses := plain_object |}.

(** A table whose first file is given by an absolute path. *)
Definition absolute_table : DataFrame :=
  [("file", [CStr "/data/a.xyz"; CStr "b.xyz"]);
   ("tag", [CStr "dimer"; CStr "trimer"]);
   ("reference_energy", [CNum (Qc_of_Z 1); CNum (Qc_of_Z 2)])].

Definition absolute_env : Env :=
  {| read_csv := fun _ => inr absolute_table;
     Path_of_str := parse;
     resolve := fun p => p |}.

(** A backend that answers with a vector of one coordinate, whatever the
    problem, and one that answers with three. *)
Definition one_coordinate : Minimize := fun _ _ _ =>
  {| res_x := [Qc_of_Z 9]; res_success := true; res_message := "" |}.

Definition three_coordinates : Minimize := fun _ _ _ =>
  {| res_x := [Qc_of_Z 9; Qc_of_Z 8; Qc_of_Z 7];
     res_success := true; res_message := "" |}.
End Example.

(** * Properties *)

(** ** The definitions at work *)

Example flatten_grouped :
  dict_keys (flatten_dict Example.grouped)
  = [["dispersion"; "C6"]; ["dispersion"; "C8"]; ["td"]].
Proof. reflexivity. Qed.

Example unflatten_out_of_order :
  unflatten_dict [(["a"; "x"], 1); (["b"], 2); (["a"; "y"], 3)]
  = [("a", Dict [("x", Leaf 1); ("y", Leaf 3)]); ("b", Leaf 2)].
Proof. reflexivity. Qed.

Example xy_equals_yx : dict_eqb Example.xy Example.yx = true.
Proof. vm_compute. reflexivity. Qed.

Example bounds_of_xy :
  scipy_bounds Example.fitter
  = Some [(Some (Qc_of_Z 0), Some (Qc_of_Z 5)); (None, None)].
Proof. reflexivity. Qed.

Example fit_without_iteration :
  (fit_scipy Example.no_iteration Example.fitter).1 = inr Example.xy.
Proof. reflexivity. Qed.

Example applier_stops_at_C6 :
  (SCMEParameterApplier_call Example.potential Example.with_unknown).1
  = Some (key_error "C6").
Proof. vm_compute. reflexivity. Qed.

Example applier_stops_at_class :
  (SCMEParameterApplier_call Example.potential Example.with_class).1
  = Some (TypeError "__class__ must be set to a class, not 'float' object").
Proof. vm_compute. reflexivity. Qed.

Example load_file_table :
  process_csv Example.env Example.csv
  = inr ([ {| absolute := false; parts := ["tests"; "a.xyz"] |};
           {| absolute := false; parts := ["tests"; "b.xyz"] |} ],
         [CStr "dimer"; CStr "trimer"],
         [CNum (Qc_of_Z 1); CNum (Qc_of_Z 2)]).
Proof. reflexivity. Qed.

Example third_output_folder :
  next_free_folder Example.output_folders 4 Example.out
  = Some (inr (Example.out_n 2)).
Proof. vm_compute. reflexivity. Qed.

Example no_folder_next_to_here :
  next_free_folder Example.empty_folder 4 Example.here
  = Some (inl (ValueError "has an empty name")).
Proof. reflexivity. Qed.

Example dangling_link_is_free :
  is_entry Example.dangling_out Example.out = true
  ∧ path_exists Example.dangling_out Example.out = inr false.
Proof. split; reflexivity. Qed.

Example long_base_name :
  String.length (name Example.long_base) = 254
  ∧ String.length (name (sibling Example.long_base 0)) = 256.
Proof. split; vm_compute; reflexivity. Qed.

Example long_name_raises :
  ∃ what, next_free_folder Example.name_limit 4 Example.long_base
          = Some (inl (OSError what)).
Proof. eexists. vm_compute. reflexivity. Qed.

(** ** Dictionaries *)

Section dict_facts.
Context {K : Type} `{EqDecision K} {X : Type}.
Implicit Types (d : list (K * X)) (k : K) (x : X).

Lemma dict_get_None d k : k ∉ d.*1 → dict_get d k = None.
Proof.
  induction d as [|[k' x'] d IH]; simpl; [done|].
  intros Hk. apply not_elem_of_cons in Hk as [Hne Hk].
  rewrite decide_False by done. by apply IH.
Qed.

Lemma dict_get_Some d k x : dict_get d k = Some x → (k, x) ∈ d.
Proof.
  induction d as [|[k' x'] d IH]; simpl; [done|].
  destruct (decide (k = k')) as [->|Hne].
  - intros [= ->]. apply list_elem_of_here.
  - intros Hd. apply list_elem_of_further. by apply IH.
Qed.

Lemma dict_get_key d k x : dict_get d k = Some x → k ∈ dict_keys d.
Proof.
  intros Hin%dict_get_Some. unfold dict_keys.
  apply list_elem_of_fmap. by exists (k, x).
Qed.

Lemma dict_get_elem d k x : NoDup d.*1 → (k, x) ∈ d → dict_get d k = Some x.
Proof.
  induction d as [|[k' x'] d IH]; simpl; [by intros _ ?%elem_of_nil|].
  intros [Hk' Hd]%NoDup_cons [[= -> ->]|Hin]%elem_of_cons.
  - by rewrite decide_True.
  - rewrite decide_False; [by apply IH|].
    intros ->. apply Hk'. apply list_elem_of_fmap. by exists (k', x).
Qed.

Lemma dict_get_is_Some d k : k ∈ d.*1 → is_Some (dict_get d k).
Proof.
  induction d as [|[k' x'] d IH]; simpl; [by intros ?%elem_of_nil|].
  intros Hin. destruct (decide (k = k')); [by eexists|].
  apply IH. by apply elem_of_cons in Hin as [?|?].
Qed.

Lemma dict_set_fresh d k x : k ∉ d.*1 → dict_set d k x = d ++ [(k, x)].
Proof.
  induction d as [|[k' x'] d IH]; simpl; [done|].
  intros Hk. apply not_elem_of_cons in Hk as [Hne Hk].
  rewrite decide_False by done. by rewrite IH.
Qed.

Lemma dict_set_set d k x y : dict_set (dict_set d k x) k y = dict_set d k y.
Proof.
  induction d as [|[k' x'] d IH]; simpl.
  - by rewrite decide_True.
  - destruct (decide (k = k')) as [->|Hne]; simpl.
    + by rewrite decide_True.
    + rewrite decide_False by done. by rewrite IH.
Qed.

Lemma dict_get_set d k x : dict_get (dict_set d k x) k = Some x.
Proof.
  induction d as [|[k' x'] d IH]; simpl.
  - by rewrite decide_True.
  - destruct (decide (k = k')) as [->|Hne]; simpl.
    + by rewrite decide_True.
    + by rewrite decide_False.
Qed.

Lemma dict_of_pairs_from d (l : list (K * X)) :
  NoDup (d ++ l).*1 →
  fold_left (fun d kx => dict_set d kx.1 kx.2) l d = d ++ l.
Proof.
  revert d. induction l as [|[k x] l IH]; intros d Hnd; simpl.
  - by rewrite app_nil_r.
  - rewrite dict_set_fresh.
    + rewrite IH; [by rewrite <- app_assoc|]. by rewrite <- app_assoc.
    + rewrite fmap_app in Hnd. apply NoDup_app in Hnd as (_ & Hdis & _).
      intros Hk. apply (Hdis k Hk). simpl. apply list_elem_of_here.
Qed.

(** [dict(pairs)] keeps a list of pairs with distinct keys as it is. *)
Lemma dict_of_pairs_NoDup (l : list (K * X)) :
  NoDup l.*1 → dict_of_pairs l = l.
Proof. intros Hnd. unfold dict_of_pairs. by rewrite dict_of_pairs_from. Qed.
End dict_facts.

(** ** Flattening and unflattening *)

Section nested_facts.
Context {A : Type}.
Implicit Types (t c : nested A) (d items : pydict A) (fd : flat_dict A).

(** Induction over nested mappings, with the hypothesis for every child. *)
Lemma nested_ind' (P : nested A → Prop) :
  (∀ a, P (Leaf a)) →
  (∀ items, Forall (fun kc => P kc.2) items → P (Dict items)) →
  ∀ t, P t.
Proof.
  intros Hleaf Hdict. fix IH 1. intros [a|items]; [apply Hleaf|].
  apply Hdict. induction items as [|[k c] items IHitems]; constructor.
  - apply IH.
  - apply IHitems.
Qed.

Lemma flatten_at_prefix t prefix :
  flatten_at prefix t = (fun e => ((prefix ++ e.1)%list, e.2)) <$> flatten_at [] t.
Proof.
  revert prefix. induction t as [a|items IH] using nested_ind'; intros prefix.
  - simpl. by rewrite app_nil_r.
  - simpl. induction IH as [|[k c] items Hc _ IHitems]; [done|].
    simpl in *. rewrite fmap_app. f_equal; [|apply IHitems].
    rewrite (Hc (prefix ++ [k])), (Hc [k]).
    rewrite <- list_fmap_compose. apply list_fmap_ext.
    intros _ [q a] _. simpl. by rewrite <- app_assoc.
Qed.

Lemma flatten_cons k c items :
  flatten_at [] (Dict ((k, c) :: items))
  = (under k <$> flatten_at [] c) ++ flatten_at [] (Dict items).
Proof. simpl. f_equal. by rewrite flatten_at_prefix. Qed.

Lemma flatten_dict_nonempty_keys items :
  Forall (fun e : flat_key * A => e.1 ≠ []) (flatten_at [] (Dict items)).
Proof.
  induction items as [|[k c] items IH]; [constructor|].
  rewrite flatten_cons. apply Forall_app. split; [|done].
  apply Forall_fmap, Forall_true. by intros [q a].
Qed.

Lemma valid_nested_Dict items :
  valid_nested (Dict items) = true →
  items ≠ [] ∧ NoDup items.*1
  ∧ Forall (fun kc : string * nested A => valid_nested kc.2 = true) items.
Proof.
  simpl. intros [[Hne Hnd]%andb_prop Hall]%andb_prop. split_and!.
  - by destruct items.
  - by apply bool_decide_eq_true_1 in Hnd.
  - apply Forall_forall. intros kc Hin. rewrite forallb_forall in Hall.
    apply Hall. by apply list_elem_of_In.
Qed.

Lemma valid_dict_inv d :
  valid_dict d = true →
  NoDup d.*1 ∧ Forall (fun kc : string * nested A => valid_nested kc.2 = true) d.
Proof.
  unfold valid_dict. intros [Hnd Hall]%andb_prop. split.
  - by apply bool_decide_eq_true_1 in Hnd.
  - apply Forall_forall. intros kc Hin. rewrite forallb_forall in Hall.
    apply Hall. by apply list_elem_of_In.
Qed.

Lemma valid_dict_intro d :
  NoDup d.*1 → Forall (fun kc : string * nested A => valid_nested kc.2 = true) d →
  valid_dict d = true.
Proof.
  intros Hnd Hall. unfold valid_dict. apply andb_true_intro. split.
  - by apply bool_decide_eq_true_2.
  - apply forallb_forall. intros kc Hin. rewrite Forall_forall in Hall.
    apply Hall. by apply list_elem_of_In.
Qed.

Lemma valid_nested_dict items :
  valid_nested (Dict items) = true ↔ items ≠ [] ∧ valid_dict items = true.
Proof.
  split.
  - intros (? & ? & ?)%valid_nested_Dict. split; [done|].
    by apply valid_dict_intro.
  - intros [Hne [Hnd Hall]%valid_dict_inv]. simpl.
    apply andb_true_intro. split; [apply andb_true_intro; split|].
    + by destruct items.
    + by apply bool_decide_eq_true_2.
    + apply forallb_forall. intros kc Hin. rewrite Forall_forall in Hall.
      apply Hall. by apply list_elem_of_In.
Qed.

(** A valid mapping has at least one leaf. *)
Lemma valid_flatten_nonempty t :
  valid_nested t = true → flatten_at [] t ≠ [].
Proof.
  induction t as [a|items IH] using nested_ind'; [done|].
  intros (Hne & _ & Hall)%valid_nested_Dict.
  destruct items as [|[k c] items]; [done|].
  rewrite flatten_cons. apply Forall_cons in IH as [IHc _].
  apply Forall_cons in Hall as [Hc _]. specialize (IHc Hc).
  simpl in IHc. destruct (flatten_at [] c); [done|]. simpl. discriminate.
Qed.

Lemma set_nested_under d k q a :
  q ≠ [] →
  set_nested d (k :: q) a = dict_set d k (Dict (set_nested (sub_dict d k) q a)).
Proof. by destruct q. Qed.

Lemma sub_dict_set d k sub : sub_dict (dict_set d k (Dict sub)) k = sub.
Proof. unfold sub_dict. by rewrite dict_get_set. Qed.

Lemma sub_dict_fresh d k : k ∉ d.*1 → sub_dict d k = [].
Proof. intros Hk. unfold sub_dict. by rewrite dict_get_None. Qed.

Lemma insert_all_app d fd fd' :
  insert_all d (fd ++ fd') = insert_all (insert_all d fd) fd'.
Proof. unfold insert_all. by rewrite fold_left_app. Qed.

(** Inserting the leaves of a sub-dictionary below [k] builds that
    sub-dictionary in place. *)
Lemma insert_all_under k fd d :
  fd ≠ [] → Forall (fun e : flat_key * A => e.1 ≠ []) fd →
  insert_all d (under k <$> fd)
  = dict_set d k (Dict (insert_all (sub_dict d k) fd)).
Proof.
  revert d. induction fd as [|[q a] fd IH]; [done|].
  intros d _ [Hq Hfd]%Forall_cons. simpl in Hq.
  change (insert_all d (under k <$> (q, a) :: fd))
    with (insert_all (set_nested d (k :: q) a) (under k <$> fd)).
  change (insert_all (sub_dict d k) ((q, a) :: fd))
    with (insert_all (set_nested (sub_dict d k) q a) fd).
  rewrite set_nested_under by done.
  destruct fd as [|e fd]; [done|].
  rewrite IH by done. by rewrite sub_dict_set, dict_set_set.
Qed.

(** The general form of the round trip: inserting the flattened [items]
    into a dictionary that has none of their keys appends them. *)
Lemma insert_all_flatten items :
  valid_dict items = true →
  ∀ d, (∀ k, k ∈ items.*1 → k ∉ d.*1) →
  insert_all d (flatten_at [] (Dict items)) = d ++ items.
Proof.
  cut (∀ t, match t with
            | Leaf _ => True
            | Dict items =>
                valid_dict items = true →
                ∀ d, (∀ k, k ∈ items.*1 → k ∉ d.*1) →
                insert_all d (flatten_at [] (Dict items)) = d ++ items
            end).
  { intros Hcut. apply (Hcut (Dict items)). }
  clear items. induction t as [a|items IH] using nested_ind'; [done|].
  induction IH as [|[k c] items Hc _ IHitems].
  { intros _ d _. by rewrite app_nil_r. }
  intros [[Hk Hnd]%NoDup_cons [Hvc Hvi]%Forall_cons]%valid_dict_inv d Hfresh.
  simpl in Hk, Hvc. cbn [snd] in Hc.
  assert (k ∉ d.*1) as Hkd by (apply Hfresh; simpl; apply list_elem_of_here).
  rewrite flatten_cons, insert_all_app.
  assert (insert_all d (under k <$> flatten_at [] c) = d ++ [(k, c)]) as ->.
  { destruct c as [a|sub].
    - simpl. by apply dict_set_fresh.
    - apply valid_nested_dict in Hvc as Hsub. destruct Hsub as [_ Hsub].
      rewrite insert_all_under.
      + rewrite sub_dict_fresh by done.
        rewrite (Hc Hsub []) by (intros ? _; apply not_elem_of_nil).
        by apply dict_set_fresh.
      + by apply valid_flatten_nonempty.
      + apply flatten_dict_nonempty_keys. }
  rewrite IHitems.
  - by rewrite <- app_assoc.
  - by apply valid_dict_intro.
  - intros k' Hk'. rewrite fmap_app. simpl. intros [Hin|Hin]%elem_of_app.
    + revert Hin. apply Hfresh. simpl. by apply list_elem_of_further.
    + apply list_elem_of_singleton in Hin as ->. done.
Qed.

(** Round trip. *)
Lemma unflatten_flatten d :
  valid_dict d = true → unflatten_dict (flatten_dict d) = d.
Proof.
  intros Hd. unfold unflatten_dict, flatten_dict.
  rewrite insert_all_flatten; [done|done|].
  intros ? _. apply not_elem_of_nil.
Qed.

Lemma under_fst k fd : (under k <$> fd).*1 = (k ::.) <$> fd.*1.
Proof. rewrite <- !list_fmap_compose. by apply list_fmap_ext. Qed.

Lemma under_snd k fd : (under k <$> fd).*2 = fd.*2.
Proof. rewrite <- !list_fmap_compose. by apply list_fmap_ext. Qed.

(** Every flat key of a dictionary starts with one of its keys. *)
Lemma flatten_head items p :
  p ∈ (flatten_at [] (Dict items)).*1 → ∃ k q, p = k :: q ∧ k ∈ items.*1.
Proof.
  induction items as [|[k c] items IH]; [by intros ?%elem_of_nil|].
  rewrite flatten_cons, fmap_app, under_fst.
  intros [Hin|Hin]%elem_of_app.
  - apply list_elem_of_fmap in Hin as (q & -> & _).
    exists k, q. split; [done|]. simpl. apply list_elem_of_here.
  - destruct (IH Hin) as (k' & q & -> & Hk').
    exists k', q. split; [done|]. simpl. by apply list_elem_of_further.
Qed.

Lemma unique_keys_Dict items :
  unique_keys (Dict items) = true
  ↔ NoDup items.*1
    ∧ Forall (fun kc : string * nested A => unique_keys kc.2 = true) items.
Proof.
  cbn [unique_keys]. rewrite andb_true_iff, bool_decide_eq_true, forallb_forall,
    Forall_forall.
  apply and_iff_compat_l. split; intros Hall kc Hin; apply Hall;
    by apply list_elem_of_In.
Qed.

Lemma valid_unique_keys t : valid_nested t = true → unique_keys t = true.
Proof.
  induction t as [a|items IH] using nested_ind'; [done|].
  intros (_ & Hnd & Hall)%valid_nested_Dict. apply unique_keys_Dict.
  split; [done|]. rewrite Forall_forall in IH, Hall |- *.
  intros kc Hin. by apply IH, Hall.
Qed.

Lemma valid_dict_unique_keys d :
  valid_dict d = true → unique_keys (Dict d) = true.
Proof.
  intros [Hnd Hall]%valid_dict_inv. apply unique_keys_Dict. split; [done|].
  eapply Forall_impl; [done|]. intros kc. apply valid_unique_keys.
Qed.

(** The flat keys of a dictionary are pairwise distinct. *)
Lemma flatten_at_NoDup t :
  unique_keys t = true → NoDup (flatten_at [] t).*1.
Proof.
  induction t as [a|items IH] using nested_ind'; [intros _; apply NoDup_singleton|].
  induction IH as [|[k c] items Hc _ IHitems]; [intros _; constructor|].
  intros [[Hk Hnd]%NoDup_cons [Hvc Hvi]%Forall_cons]%unique_keys_Dict.
  simpl in Hk, Hvc. cbn [snd] in Hc.
  rewrite flatten_cons, fmap_app, under_fst. apply NoDup_app. split_and!.
  - apply (NoDup_fmap_2 _). by apply Hc.
  - intros p (q & -> & _)%list_elem_of_fmap Hin.
    apply flatten_head in Hin as (k' & q' & [= <- _] & Hk'). done.
  - apply IHitems. by apply unique_keys_Dict.
Qed.

Lemma flatten_unique_NoDup d :
  unique_keys (Dict d) = true → NoDup (dict_keys (flatten_dict d)).
Proof. apply (flatten_at_NoDup (Dict d)). Qed.

Lemma flatten_dict_NoDup d :
  valid_dict d = true → NoDup (dict_keys (flatten_dict d)).
Proof. intros Hd. by apply flatten_unique_NoDup, valid_dict_unique_keys. Qed.

(** Any vector of the right length is the vector of leaves of a valid
    mapping with the same flat keys (the dictionaries without a leaf are
    left out of it). *)
Lemma refill_exists items (xs : list A) :
  unique_keys (Dict items) = true →
  length xs = length (flatten_at [] (Dict items)) →
  ∃ items',
    (flatten_at [] (Dict items')).*1 = (flatten_at [] (Dict items)).*1
    ∧ (flatten_at [] (Dict items')).*2 = xs
    ∧ valid_dict items' = true
    ∧ items'.*1 `sublist_of` items.*1.
Proof.
  cut (∀ t, match t with
            | Leaf _ => True
            | Dict items =>
                ∀ xs, unique_keys (Dict items) = true →
                length xs = length (flatten_at [] (Dict items)) →
                ∃ items',
                  (flatten_at [] (Dict items')).*1 = (flatten_at [] (Dict items)).*1
                  ∧ (flatten_at [] (Dict items')).*2 = xs
                  ∧ valid_dict items' = true
                  ∧ items'.*1 `sublist_of` items.*1
            end).
  { intros Hcut. apply (Hcut (Dict items)). }
  clear items xs. induction t as [a|items IH] using nested_ind'; [done|].
  induction IH as [|[k c] items Hc _ IHitems].
  { intros [|??] _ [=]. exists []. split_and!; [done..|constructor]. }
  intros xs [[Hk Hnd]%NoDup_cons [Hvc Hvi]%Forall_cons]%unique_keys_Dict.
  simpl in Hk, Hvc. cbn [snd] in Hc.
  rewrite flatten_cons, length_app, length_fmap. intros Hlen.
  set (n := length (flatten_at [] c)) in *.
  destruct (IHitems (drop n xs)) as (items' & Hk' & Hx' & Hv' & Hsub').
  { by apply unique_keys_Dict. }
  { rewrite length_drop. lia. }
  apply valid_dict_inv in Hv' as Hinv'. destruct Hinv' as [Hnd' Hall'].
  assert (k ∉ items'.*1) as Hk''.
  { intros Hin. apply Hk. by eapply elem_of_sublist. }
  destruct c as [a|sub].
  - simpl in n. destruct xs as [|x xs]; [simpl in Hlen; lia|].
    exists ((k, Leaf x) :: items').
    rewrite !flatten_cons, !fmap_app, !under_fst, !under_snd. split_and!.
    + by rewrite Hk'.
    + simpl in *. by rewrite Hx'.
    + apply valid_dict_intro; [rewrite fmap_cons; by apply NoDup_cons|].
      by apply Forall_cons.
    + rewrite !fmap_cons. by apply sublist_skip.
  - destruct (Hc (take n xs) Hvc) as (sub' & Hsk & Hsx & Hsv & _).
    { rewrite length_take. lia. }
    destruct sub' as [|kc sub'].
    + (* no leaf below [k]: the entry is left out *)
      assert (flatten_at [] (Dict sub) = []) as Hempty.
      { apply (fmap_nil_inv fst). by rewrite <- Hsk. }
      assert (n = 0) as Hn by (unfold n; by rewrite Hempty).
      exists items'. rewrite Hempty. simpl.
      rewrite Hn, drop_0 in Hx'. split_and!; [done..|].
      by apply sublist_cons.
    + exists ((k, Dict (kc :: sub')) :: items').
      rewrite (flatten_cons k (Dict (kc :: sub')) items').
      rewrite !fmap_app, !under_fst, !under_snd. split_and!.
      * by rewrite Hsk, Hk'.
      * by rewrite Hsx, Hx', take_drop.
      * apply valid_dict_intro; [rewrite fmap_cons; by apply NoDup_cons|].
        apply Forall_cons. split; [|done]. by apply valid_nested_dict.
      * rewrite !fmap_cons. by apply sublist_skip.
Qed.
End nested_facts.

(** ** Equality of nested mappings *)

Section equality_facts.
Context {A : Type} `{EqDecision A}.
Implicit Types (t u c : nested A) (items d : pydict A).

Lemma nested_eqb_Dict items items' :
  nested_eqb (Dict items) (Dict items') = true
  ↔ length items = length items'
    ∧ Forall (fun kc : string * nested A =>
                ∃ c', dict_get items' kc.1 = Some c'
                      ∧ nested_eqb kc.2 c' = true) items.
Proof.
  cbn [nested_eqb]. rewrite andb_true_iff, Nat.eqb_eq, forallb_forall, Forall_forall.
  apply and_iff_compat_l. split.
  - intros Hall kc Hin%list_elem_of_In. specialize (Hall kc Hin).
    destruct (dict_get items' kc.1) as [c'|]; [by exists c'|done].
  - intros Hall kc Hin%list_elem_of_In.
    destruct (Hall kc Hin) as (c' & -> & Hc'). done.
Qed.

(** A dictionary whose keys are all in another one of the same size has
    the entries of the other one, in some order. *)
Lemma partners_Permutation (R : nested A → nested A → Prop) items items' :
  NoDup items.*1 → length items = length items' →
  Forall (fun kc : string * nested A =>
            ∃ c', dict_get items' kc.1 = Some c' ∧ R kc.2 c') items →
  ∃ m, m ≡ₚ items'
       ∧ Forall2 (fun kc kc' : string * nested A =>
                    kc.1 = kc'.1 ∧ R kc.2 kc'.2) items m.
Proof.
  intros Hnd Hlen Hall.
  assert (∃ m, m ⊆ items'
               ∧ Forall2 (fun kc kc' : string * nested A =>
                            kc.1 = kc'.1 ∧ R kc.2 kc'.2) items m)
    as (m & Hsub & Hrel).
  { clear Hnd Hlen.
    induction Hall as [|[k c] items (c' & Hget & Hc') _ (m & Hsub & Hrel)].
    - exists []. split; [set_solver|constructor].
    - exists ((k, c') :: m). split.
      + intros e [->|He]%elem_of_cons; [by apply dict_get_Some|by apply Hsub].
      + by constructor. }
  exists m. split; [|done].
  assert (m.*1 = items.*1) as Hkeys.
  { clear -Hrel. induction Hrel as [|[??] [??] ?? [Hk _] _ IH]; [done|].
    rewrite !fmap_cons, IH. simpl in *. by rewrite Hk. }
  apply submseteq_length_Permutation.
  - apply NoDup_submseteq; [|done]. apply (NoDup_fmap_1 fst). by rewrite Hkeys.
  - apply Forall2_length in Hrel. lia.
Qed.

Lemma flatten_Forall2 items m :
  Forall2 (fun kc kc' : string * nested A =>
             kc.1 = kc'.1 ∧ flatten_at [] kc.2 ≡ₚ flatten_at [] kc'.2) items m →
  flatten_at [] (Dict items) ≡ₚ flatten_at [] (Dict m).
Proof.
  induction 1 as [|[k c] [k' c'] items m [Hk Hc] _ IH]; [done|].
  simpl in Hk, Hc. subst k'. rewrite !flatten_cons. by rewrite Hc, IH.
Qed.

Lemma flatten_Permutation items items' :
  items ≡ₚ items' → flatten_at [] (Dict items) ≡ₚ flatten_at [] (Dict items').
Proof. intros Hp. cbn [flatten_at]. by apply Permutation_flat_map. Qed.

(** Equal mappings have the same flat entries, up to their order. *)
Lemma nested_eqb_flatten t u :
  unique_keys t = true → unique_keys u = true →
  nested_eqb t u = true → flatten_at [] t ≡ₚ flatten_at [] u.
Proof.
  revert u. induction t as [a|items IH] using nested_ind'; intros [b|items'] Ht Hu Heq;
    try discriminate Heq.
  { cbn in Heq. by apply bool_decide_eq_true in Heq as ->. }
  apply nested_eqb_Dict in Heq as [Hlen Hall].
  apply unique_keys_Dict in Ht as (Hnd & Hvalid).
  apply unique_keys_Dict in Hu as (Hnd' & Hvalid').
  destruct (partners_Permutation
              (fun c c' => flatten_at [] c ≡ₚ flatten_at [] c') items items')
    as (m & Hm & Hrel); [done|done| |].
  - rewrite Forall_forall in IH, Hall, Hvalid, Hvalid'.
    apply Forall_forall. intros kc Hin.
    destruct (Hall kc Hin) as (c' & Hget & Heq). exists c'. split; [done|].
    apply (IH kc Hin); [by apply Hvalid| |done].
    apply (Hvalid' (kc.1, c')). by apply dict_get_Some.
  - rewrite (flatten_Forall2 _ _ Hrel). by apply flatten_Permutation.
Qed.

Lemma dict_eqb_flatten d d' :
  unique_keys (Dict d) = true → unique_keys (Dict d') = true →
  dict_eqb d d' = true → flatten_dict d ≡ₚ flatten_dict d'.
Proof. apply nested_eqb_flatten. Qed.

Lemma below_under k k' (fd : flat_dict A) :
  omap (below k) (under k' <$> fd) = if decide (k' = k) then fd else [].
Proof.
  induction fd as [|[q a] fd IH]; [by destruct (decide _)|].
  rewrite fmap_cons. cbn [omap list_omap]. unfold below at 1. simpl.
  fold (omap (below k) (under k' <$> fd)). rewrite IH.
  by destruct (decide (k' = k)).
Qed.

(** The entries below a key are those of the value under that key. *)
Lemma below_flatten items k :
  NoDup items.*1 →
  omap (below k) (flatten_at [] (Dict items))
  = match dict_get items k with
    | Some c => flatten_at [] c
    | None => []
    end.
Proof.
  induction items as [|[k' c] items IH]; [done|].
  rewrite fmap_cons. intros [Hk' Hnd]%NoDup_cons.
  rewrite flatten_cons, omap_app, below_under, IH by done. cbn [dict_get].
  destruct (decide (k' = k)) as [->|Hne].
  - rewrite decide_True by done. rewrite dict_get_None by done.
    by rewrite app_nil_r.
  - by rewrite decide_False by done.
Qed.

(** Mappings with the same flat entries have, under every key of the one,
    a value of the other with the same flat entries. *)
Lemma flatten_partner items items' k c :
  NoDup items.*1 → NoDup items'.*1 →
  valid_nested c = true → (k, c) ∈ items →
  flatten_at [] (Dict items) ≡ₚ flatten_at [] (Dict items') →
  ∃ c', dict_get items' k = Some c' ∧ flatten_at [] c ≡ₚ flatten_at [] c'.
Proof.
  intros Hnd Hnd' Hc Hin Hperm.
  apply (omap_Permutation (below k)) in Hperm.
  rewrite !below_flatten in Hperm by done.
  rewrite (dict_get_elem items k c) in Hperm by done.
  destruct (dict_get items' k) as [c'|]; [by exists c'|].
  apply Permutation_nil_r in Hperm. by apply valid_flatten_nonempty in Hperm.
Qed.

Lemma flatten_leaf_not_dict a items :
  ¬ [([], a)] ≡ₚ flatten_at [] (Dict items).
Proof.
  intros Hperm%Permutation_singleton_l.
  pose proof (flatten_dict_nonempty_keys items) as Hkeys.
  rewrite <- Hperm in Hkeys. by apply Forall_cons in Hkeys as [? _].
Qed.

(** Valid mappings with the same flat entries are equal. *)
Lemma flatten_nested_eqb t u :
  valid_nested t = true → valid_nested u = true →
  flatten_at [] t ≡ₚ flatten_at [] u → nested_eqb t u = true.
Proof.
  revert u. induction t as [a|items IH] using nested_ind'; intros [b|items'] Ht Hu Hperm.
  - apply Permutation_singleton_inj in Hperm as [= ->]. cbn.
    by apply bool_decide_eq_true_2.
  - by apply flatten_leaf_not_dict in Hperm.
  - symmetry in Hperm. by apply flatten_leaf_not_dict in Hperm.
  - apply valid_nested_Dict in Ht as (_ & Hnd & Hvalid).
    apply valid_nested_Dict in Hu as (_ & Hnd' & Hvalid').
    rewrite Forall_forall in IH, Hvalid, Hvalid'.
    apply nested_eqb_Dict. split.
    + apply Nat.le_antisymm.
      * rewrite <- (length_fmap fst items), <- (length_fmap fst items').
        apply submseteq_length, NoDup_submseteq; [done|].
        intros k ([k' c] & -> & Hin)%list_elem_of_fmap.
        destruct (flatten_partner items items' k' c) as (c' & Hget & _);
          [done|done|by apply (Hvalid (k', c))|done|done|].
        by eapply dict_get_key.
      * rewrite <- (length_fmap fst items), <- (length_fmap fst items').
        apply submseteq_length, NoDup_submseteq; [done|].
        intros k ([k' c] & -> & Hin)%list_elem_of_fmap.
        destruct (flatten_partner items' items k' c) as (c' & Hget & _);
          [done|done|by apply (Hvalid' (k', c))|done|done|].
        by eapply dict_get_key.
    + apply Forall_forall. intros [k c] Hin.
      destruct (flatten_partner items items' k c) as (c' & Hget & Hc');
        [done|done|by apply (Hvalid (k, c))|done|done|].
      exists c'. split; [done|].
      apply (IH (k, c) Hin); [by apply (Hvalid (k, c))| |done].
      apply (Hvalid' (k, c')). by apply dict_get_Some.
Qed.

Lemma flatten_dict_eqb d d' :
  valid_dict d = true → valid_dict d' = true →
  flatten_dict d ≡ₚ flatten_dict d' → dict_eqb d d' = true.
Proof.
  intros Hd Hd' Hperm. destruct d as [|kc d].
  - destruct d' as [|kc' d']; [done|].
    assert (flatten_dict (kc' :: d') ≠ []) as Hne.
    { apply valid_flatten_nonempty. by apply valid_nested_dict. }
    apply Permutation_nil_l in Hperm. congruence.
  - destruct d' as [|kc' d'].
    { assert (flatten_dict (kc :: d) ≠ []) as Hne.
      { apply valid_flatten_nonempty. by apply valid_nested_dict. }
      apply Permutation_nil_r in Hperm. congruence. }
    apply flatten_nested_eqb; [by apply valid_nested_dict..|done].
Qed.
End equality_facts.

(** ** The fitter *)

Section fitter_facts.
Implicit Types (self : Fitter) (minimize : Minimize) (x xs : list scalar).

Lemma mapM_flat_getitem {A} (fd l : flat_dict A) :
  NoDup fd.*1 → l ⊆ fd → mapM (flat_getitem fd) l.*1 = ret l.*2.
Proof.
  intros Hnd. induction l as [|[k a] l IH]; intros Hsub; [done|].
  rewrite !fmap_cons. cbn [mapM fst snd]. unfold flat_getitem at 1.
  rewrite (dict_get_elem fd k a) by (done || apply Hsub, list_elem_of_here).
  rewrite IH; [done|]. intros e He. apply Hsub. by apply list_elem_of_further.
Qed.

(** The initial vector is the vector of leaves of the initial parameters. *)
Lemma scipy_x0_values self :
  unique_keys (Dict (initial_parameters self)) = true →
  scipy_x0 self = ret (flatten_dict (initial_parameters self)).*2.
Proof.
  intros Hv. unfold scipy_x0, scipy_keys, dict_keys.
  apply mapM_flat_getitem; [|done]. by apply flatten_unique_NoDup.
Qed.

(** Building the initial vector never raises: the keys looked up are the
    keys of the dictionary itself. *)
Lemma scipy_x0_returns self :
  ∃ x0, scipy_x0 self = ret x0 ∧ length x0 = length (scipy_keys self).
Proof.
  unfold scipy_x0, scipy_keys.
  cut (∀ ks : list flat_key,
         ks ⊆ dict_keys (flatten_dict (initial_parameters self)) →
         ∃ x0, mapM (flat_getitem (flatten_dict (initial_parameters self))) ks
               = ret x0 ∧ length x0 = length ks).
  { intros Hcut. by apply Hcut. }
  induction ks as [|k ks IH]; intros Hsub; [by exists []|].
  destruct IH as (x0 & Hx0 & Hlen).
  { intros k' Hk'. apply Hsub. by apply list_elem_of_further. }
  destruct (dict_get_is_Some (flatten_dict (initial_parameters self)) k)
    as [a Ha]; [apply Hsub, list_elem_of_here|].
  exists (a :: x0). cbn [mapM]. unfold flat_getitem at 1. rewrite Ha, Hx0.
  split; [done|]. simpl. by rewrite Hlen.
Qed.

(** What the adapter and the final step rebuild from a vector [xs]: a
    valid mapping whose flat form is [xs] under the captured keys. *)
Lemma rebuild self xs :
  unique_keys (Dict (initial_parameters self)) = true →
  length xs = length (scipy_keys self) →
  ∃ p, unflatten_dict (dict_of_pairs (zip (scipy_keys self) xs)) = p
       ∧ flatten_dict p = zip (scipy_keys self) xs
       ∧ valid_dict p = true.
Proof.
  intros Hv Hlen. unfold scipy_keys, dict_keys, flatten_dict in *.
  rewrite length_fmap in Hlen.
  destruct (refill_exists _ xs Hv Hlen) as (p & Hk & Hx & Hp & _).
  exists p. rewrite <- Hk, <- Hx, zip_fst_snd.
  split_and!; [|done..].
  rewrite dict_of_pairs_NoDup by (by apply flatten_dict_NoDup).
  by apply unflatten_flatten.
Qed.

(** One run of [fit_scipy], step by step. *)
Lemma fit_scipy_run_from minimize self x0 :
  scipy_x0 self = ret x0 →
  let res := minimize (f_scipy self) x0 (scipy_bounds self) in
  let opt := unflatten_dict (dict_of_pairs (zip (scipy_keys self) (res_x res))) in
  fit_scipy minimize self = (inr opt, fit_log self res opt).
Proof.
  intros Hx0 res opt. unfold fit_scipy. rewrite Hx0.
  unfold fit_log, hook_pre_fit, hook_post_fit, logger_info, logger_warning.
  cbv [bind ret]. fold res. fold opt.
  by destruct (res_success res).
Qed.

Lemma fit_scipy_run minimize self :
  unique_keys (Dict (initial_parameters self)) = true →
  let res := minimize (f_scipy self)
               (flatten_dict (initial_parameters self)).*2
               (scipy_bounds self) in
  let opt := unflatten_dict (dict_of_pairs (zip (scipy_keys self) (res_x res))) in
  fit_scipy minimize self = (inr opt, fit_log self res opt).
Proof. intros Hv. by apply fit_scipy_run_from, scipy_x0_values. Qed.
End fitter_facts.

(** ** Properties of the fitter *)

(** C1. Round trip: for every nested mapping [x] whose leaves are all
    scalars, unflattening the flattened [x] gives [x] back.  Hence the
    adapter [f_scipy] of a fit call whose captured keys are those of [x]
    evaluates the objective at exactly [x] when it is called on the leaves of
    [x]; and every vector [xs] of the right length that the optimizer may
    propose is rebuilt into a valid mapping [p] whose flat form is [xs] under
    the captured keys. *)
Theorem round_trip (x : pydict scalar) :
  valid_dict x = true →
  unflatten_dict (flatten_dict x) = x
  ∧ (∀ self, scipy_keys self = dict_keys (flatten_dict x) →
       f_scipy self (flatten_dict x).*2 = objective_function self x)
  ∧ (∀ self xs, initial_parameters self = x →
       length xs = length (scipy_keys self) →
       ∃ p, valid_dict p = true
            ∧ flatten_dict p = zip (scipy_keys self) xs
            ∧ f_scipy self xs = objective_function self p).
Proof.
  intros Hx. split_and!.
  - by apply unflatten_flatten.
  - intros self Hkeys. unfold f_scipy. rewrite Hkeys. unfold dict_keys.
    rewrite zip_fst_snd.
    rewrite dict_of_pairs_NoDup by (by apply flatten_dict_NoDup).
    by rewrite unflatten_flatten.
  - intros self xs <- Hlen.
    destruct (rebuild self xs (valid_dict_unique_keys _ Hx) Hlen)
      as (p & Hp & Hflat & Hvalid).
    exists p. split_and!; [done..|]. unfold f_scipy. by rewrite Hp.
Qed.

Lemma round_trip_witness :
  unflatten_dict (flatten_dict Example.grouped) = Example.grouped.
Proof.
  refine (proj1 (round_trip Example.grouped _)). vm_compute. reflexivity.
Defined.

(** C2. One key ordering per fit call: with [ks] the keys of the flattened
    initial parameters, the initial vector [x0] lists the initial leaves in
    the order [ks], the bounds array lists the bounds of [ks] in that order,
    the adapter unflattens every candidate under [ks], and the returned
    parameters are the backend's result unflattened under [ks]. *)
Theorem one_key_ordering (minimize : Minimize) (self : Fitter) :
  unique_keys (Dict (initial_parameters self)) = true →
  let ks := dict_keys (flatten_dict (initial_parameters self)) in
  ∃ x0,
    NoDup ks
    ∧ scipy_x0 self = ret x0
    ∧ length x0 = length ks
    ∧ zip ks x0 = flatten_dict (initial_parameters self)
    ∧ scipy_bounds self
      = (if Nat.eqb (length ks) 0 then None
         else Some (bounds_for (flatten_dict (bounds self)) <$> ks))
    ∧ (∀ x, f_scipy self x
            = objective_function self
                (unflatten_dict (dict_of_pairs (zip ks x))))
    ∧ (fit_scipy minimize self).1
      = inr (unflatten_dict
               (dict_of_pairs
                  (zip ks (res_x (minimize (f_scipy self) x0 (scipy_bounds self)))))).
Proof.
  intros Hv ks. exists (flatten_dict (initial_parameters self)).*2. split_and!.
  - by apply flatten_unique_NoDup.
  - by apply scipy_x0_values.
  - unfold ks, dict_keys. by rewrite !length_fmap.
  - apply zip_fst_snd.
  - unfold scipy_bounds. by rewrite length_map.
  - done.
  - by rewrite fit_scipy_run.
Qed.

Lemma one_key_ordering_witness :
  ∃ x0,
    NoDup [["x"]; ["y"]]
    ∧ scipy_x0 Example.fitter = ret x0
    ∧ length x0 = 2
    ∧ zip [["x"]; ["y"]] x0 = flatten_dict Example.xy
    ∧ scipy_bounds Example.fitter
      = Some (bounds_for (flatten_dict Example.x_bounds) <$> [["x"]; ["y"]])
    ∧ (∀ x, f_scipy Example.fitter x
            = Example.objective
                (unflatten_dict (dict_of_pairs (zip [["x"]; ["y"]] x))))
    ∧ (fit_scipy Example.no_iteration Example.fitter).1
      = inr (unflatten_dict
               (dict_of_pairs
                  (zip [["x"]; ["y"]]
                     (res_x (Example.no_iteration (f_scipy Example.fitter) x0
                               (scipy_bounds Example.fitter)))))).
Proof.
  apply (one_key_ordering Example.no_iteration Example.fitter).
  vm_compute. reflexivity.
Defined.

(** C3. Non-convergence is recovered: in every fit call the backend is
    run from the initial vector [x0] and, whatever it reports, the fit
    returns its iterate unflattened under the captured keys; when the
    backend reports no success the warning with its message is logged, and
    when it reports success no warning is logged.  The value returned has the
    same form in both cases. *)
Theorem non_convergence_recovered (minimize : Minimize) (self : Fitter) :
  ∃ x0 log,
    scipy_x0 self = ret x0
    ∧ let res := minimize (f_scipy self) x0 (scipy_bounds self) in
      let opt := unflatten_dict (dict_of_pairs (zip (scipy_keys self) (res_x res))) in
      fit_scipy minimize self = (inr opt, log)
      ∧ (res_success res = false →
           (WARNING, FitDidNotConverge (res_message res)) ∈ log)
      ∧ (res_success res = true → ∀ msg, (WARNING, msg) ∉ log).
Proof.
  destruct (scipy_x0_returns self) as (x0 & Hx0 & _).
  exists x0. eexists. split; [done|].
  intros res opt. split; [by apply fit_scipy_run_from|]. fold res. fold opt.
  unfold fit_log. split; intros ->.
  - set_solver.
  - intros msg Hin. repeat (apply elem_of_cons in Hin as [[=]|Hin]).
    by apply elem_of_nil in Hin.
Qed.

(** The fit of the docstring, stopped before its first iteration, returns
    its starting point and logs the warning. *)
Lemma non_convergence_recovered_witness :
  ∃ log,
    fit_scipy Example.no_iteration Example.fitter = (inr Example.xy, log)
    ∧ (WARNING,
       FitDidNotConverge "Maximum number of iterations has been exceeded.")
      ∈ log.
Proof.
  destruct (non_convergence_recovered Example.no_iteration Example.fitter)
    as (x0 & log & Hx0 & Hrun & Hwarn & _).
  injection Hx0 as <-. exists log. split; [exact Hrun|]. by apply Hwarn.
Defined.

(** C6. Bound alignment: the bound handed to the backend for a flattened
    initial key that the bounds mapping does not have is [(None, None)]; and
    keys of the bounds mapping without a counterpart among the flattened
    initial parameters are ignored: two bounds mappings that agree on the
    initial keys give the same initial vector, the same bounds array and the
    same fitted parameters, and the fit raises no exception. *)
Theorem bound_alignment (self : Fitter) :
  (∀ i k, scipy_keys self !! i = Some k →
     k ∉ dict_keys (flatten_dict (bounds self)) →
     bounds_for (flatten_dict (bounds self)) k = (None, None)
     ∧ ∃ bs, scipy_bounds self = Some bs ∧ bs !! i = Some (None, None))
  ∧ (∀ other_bounds,
       (∀ k, k ∈ scipy_keys self →
          dict_get (flatten_dict other_bounds) k
          = dict_get (flatten_dict (bounds self)) k) →
       let self' := {| objective_function := objective_function self;
                       initial_parameters := initial_parameters self;
                       bounds := other_bounds |} in
       scipy_x0 self' = scipy_x0 self
       ∧ scipy_bounds self' = scipy_bounds self
       ∧ ∀ minimize, ∃ opt,
           (fit_scipy minimize self).1 = inr opt
           ∧ (fit_scipy minimize self').1 = inr opt).
Proof.
  split.
  - intros i k Hi Hk.
    assert (bounds_for (flatten_dict (bounds self)) k = (None, None)) as Hnone.
    { unfold bounds_for, dict_get_default. by rewrite dict_get_None. }
    split; [done|]. unfold scipy_bounds. rewrite length_map.
    destruct (scipy_keys self) as [|k0 ks] eqn:Hks; [done|].
    eexists. split; [done|]. rewrite list_lookup_fmap, Hi. simpl. by f_equal.
  - intros other Hagree self'.
    assert (scipy_bounds self' = scipy_bounds self) as Hb.
    { unfold scipy_bounds. change (scipy_keys self') with (scipy_keys self).
      rewrite !length_map. destruct (Nat.eqb _ _); [done|].
      f_equal. apply list_fmap_ext. intros _ k Hk%list_elem_of_lookup_2.
      unfold dict_get_default. simpl. by rewrite Hagree. }
    split_and!; [done|done|]. intros minimize.
    destruct (scipy_x0_returns self) as (x0 & Hx0 & _).
    eexists. split.
    + by rewrite (fit_scipy_run_from minimize self x0).
    + rewrite (fit_scipy_run_from minimize self' x0) by done. simpl. by rewrite Hb.
Qed.

(** In the fit of the docstring with a bound on [x] alone, [y] is
    unbounded. *)
Lemma bound_alignment_witness :
  bounds_for (flatten_dict Example.x_bounds) ["y"] = (None, None)
  ∧ ∃ bs, scipy_bounds Example.fitter = Some bs ∧ bs !! 1%nat = Some (None, None).
Proof.
  refine (proj1 (bound_alignment Example.fitter) 1%nat ["y"] _ _).
  - vm_compute. reflexivity.
  - apply (bool_decide_eq_false_1 _). vm_compute. reflexivity.
Defined.

(** ** Parameter application *)

Section applier_facts.
Context {V : Type}.
Implicit Types (scme : Potential V) (params pre post : list (string * V)).

Lemma Potential_eq scme scme' :
  attributes scme = attributes scme' → refuses scme = refuses scme' →
  scme = scme'.
Proof. destruct scme, scme'. simpl. by intros -> ->. Qed.

(** Assigning an attribute that exists does not change which attributes
    exist. *)
Lemma hasattr_store scme key value key' :
  hasattr scme key = true →
  hasattr (store scme key value) key' = hasattr scme key'.
Proof.
  intros Hk. unfold hasattr, store in *. simpl. apply bool_decide_ext.
  destruct (decide (key = key')) as [<-|Hne].
  - rewrite lookup_insert_eq. apply bool_decide_eq_true in Hk. naive_solver.
  - by rewrite lookup_insert_ne.
Qed.

(** What the potential refuses does not change with its values. *)
Lemma refuses_setattr_all scme pre :
  refuses (setattr_all scme pre) = refuses scme.
Proof.
  revert scme. induction pre as [|[k v] pre IH]; intros scme; [done|].
  unfold setattr_all in *. simpl. by rewrite IH.
Qed.

(** An accepted assignment overlays the earlier ones under the same name. *)
Lemma assigned_to_twice (old : option (Attribute V)) (v0 v : V) :
  assigned_to (Some (assigned_to old v0)) v = assigned_to old v.
Proof. by destruct old as [[?|?]|]. Qed.

Lemma getattr_assigned scme k (old : option (Attribute V)) (v : V) :
  attributes scme !! k = Some (assigned_to old v) → getattr scme k = Some v.
Proof. unfold getattr. intros ->. by destruct old as [[?|?]|]. Qed.

(** As long as the names are attributes and the assignments are accepted,
    the loop assigns and goes on. *)
Lemma applier_known scme pre post :
  (∀ k, k ∈ pre.*1 → hasattr scme k = true) →
  (∀ k v, (k, v) ∈ pre → refuses scme k v = None) →
  SCMEParameterApplier_call scme (pre ++ post)
  = SCMEParameterApplier_call (setattr_all scme pre) post
  ∧ ∀ k, hasattr (setattr_all scme pre) k = hasattr scme k.
Proof.
  revert scme. induction pre as [|[k v] pre IH]; intros scme Hknown Hacc; [done|].
  assert (hasattr scme k = true) as Hk.
  { apply Hknown. rewrite fmap_cons. apply list_elem_of_here. }
  assert (refuses scme k v = None) as Hv by (apply Hacc, list_elem_of_here).
  simpl. rewrite Hk. unfold setattr. rewrite Hv.
  destruct (IH (store scme k v)) as [-> Hdom].
  { intros k' Hk'. rewrite hasattr_store by done.
    apply Hknown. rewrite fmap_cons. by apply list_elem_of_further. }
  { intros k' v' Hin. simpl. by apply Hacc, list_elem_of_further. }
  split; [done|]. intros k'. unfold setattr_all in *. simpl.
  by rewrite Hdom, hasattr_store.
Qed.

(** The attributes after the assignments of a mapping without repeated
    names. *)
Lemma setattr_all_attributes scme pre :
  NoDup pre.*1 →
  (∀ k v, (k, v) ∈ pre →
     attributes (setattr_all scme pre) !! k
     = Some (assigned_to (attributes scme !! k) v))
  ∧ (∀ k, k ∉ pre.*1 →
       attributes (setattr_all scme pre) !! k = attributes scme !! k).
Proof.
  revert scme. induction pre as [|[k v] pre IH]; intros scme Hnd.
  { split; [by intros ?? ?%elem_of_nil|done]. }
  rewrite fmap_cons in Hnd. apply NoDup_cons in Hnd as [Hk Hnd].
  destruct (IH (store scme k v) Hnd) as [Hin Hout]. split.
  - intros k' v' [[= -> ->]|Hin']%elem_of_cons.
    + unfold setattr_all in *. simpl. rewrite Hout by done.
      apply lookup_insert_eq.
    + unfold setattr_all in *. simpl. rewrite (Hin k' v' Hin'). simpl.
      rewrite lookup_insert_ne; [done|].
      intros ->. apply Hk. apply list_elem_of_fmap. by exists (k', v').
  - intros k' [Hne Hk']%not_elem_of_cons.
    unfold setattr_all in *. simpl. rewrite Hout by done.
    by apply lookup_insert_ne.
Qed.

Lemma setattr_all_lookup scme pre :
  NoDup pre.*1 →
  (∀ k v, (k, v) ∈ pre → getattr (setattr_all scme pre) k = Some v)
  ∧ (∀ k, k ∉ pre.*1 →
       attributes (setattr_all scme pre) !! k = attributes scme !! k).
Proof.
  intros Hnd. destruct (setattr_all_attributes scme pre Hnd) as [Hin Hout].
  split; [|done]. intros k v Hkv. eapply getattr_assigned. by apply Hin.
Qed.



Lemma applier_raises scme pre key value post :
  (∀ k, k ∈ pre.*1 → hasattr scme k = true) →
  (∀ k v, (k, v) ∈ pre → refuses scme k v = None) →
  hasattr scme key = false →
  SCMEParameterApplier_call scme (pre ++ (key, value) :: post)
  = (Some (key_error key), setattr_all scme pre).
Proof.
  intros Hpre Hacc Hkey.
  destruct (applier_known scme pre ((key, value) :: post)) as [-> Hdom]; [done..|].
  simpl. by rewrite Hdom, Hkey.
Qed.

End applier_facts.




(** C5. No rollback: when the application raises at [key], the assignments
    before it having been accepted, every parameter processed before it
    keeps its new value on the potential, and nothing else has changed. *)
Theorem no_rollback {V : Type} (scme : Potential V)
    (pre post : list (string * V)) (key : string) (value : V) :
  NoDup (dict_keys pre) →
  (∀ k, k ∈ dict_keys pre → hasattr scme k = true) →
  (∀ k v, (k, v) ∈ pre → refuses scme k v = None) →
  hasattr scme key = false →
  ∃ scme',
    SCMEParameterApplier_call scme (pre ++ (key, value) :: post)
    = (Some (key_error key), scme')
    ∧ (∀ k v, (k, v) ∈ pre → getattr scme' k = Some v)
    ∧ (∀ k, k ∉ dict_keys pre → attributes scme' !! k = attributes scme !! k).
Proof.
  intros Hnd Hpre Hacc Hkey. exists (setattr_all scme pre).
  destruct (setattr_all_lookup scme pre Hnd) as [Hin Hout].
  split_and!; [|done..]. by apply applier_raises.
Qed.

Lemma no_rollback_witness :
  ∃ scme',
    SCMEParameterApplier_call Example.potential Example.with_unknown
    = (Some (key_error "C6"), scme')
    ∧ (∀ k v, (k, v) ∈ [("td", Leaf (Qc_of_Z 5))] → getattr scme' k = Some v)
    ∧ (∀ k, k ∉ ["td"] →
         attributes scme' !! k = attributes Example.potential !! k).
Proof.
  apply (no_rollback Example.potential [("td", Leaf (Qc_of_Z 5))]
           [("te", Leaf (Qc_of_Z 2))] "C6" (Leaf (Qc_of_Z 7))).
  - apply NoDup_singleton.
  - intros k ->%list_elem_of_singleton. vm_compute. reflexivity.
  - intros k v [= -> ->]%list_elem_of_singleton. vm_compute. reflexivity.
  - vm_compute. reflexivity.
Defined.

(** ** The dataset loader *)

Section loader_facts.
Implicit Types (env : Env) (df : DataFrame) (names : list string).

Lemma traverse_text {B} (f : Cell → Exception + B) (g : string → B) names :
  (∀ s, f (CStr s) = inr (g s)) →
  traverse f (CStr <$> names) = inr (g <$> names).
Proof.
  intros Hf. induction names as [|s names IH]; [done|].
  rewrite !fmap_cons. cbn [traverse]. by rewrite Hf, IH.
Qed.

Lemma df_getitem_Some df c col :
  dict_get df c = Some col → df_getitem df c = inr col.
Proof. intros Hc. unfold df_getitem. by rewrite Hc. Qed.

(** The [path] branch of [process_csv]. *)
Lemma process_csv_path env path_to_csv df names tags energies :
  read_csv env path_to_csv = inr df →
  dict_get df "path" = Some (CStr <$> names) →
  dict_get df "tag" = Some tags →
  dict_get df "reference_energy" = Some energies →
  process_csv env path_to_csv = inr (Path_of_str env <$> names, tags, energies).
Proof.
  intros Hread Hpath Htag Henergy. unfold process_csv. rewrite Hread.
  rewrite bool_decide_eq_true_2 by (by eapply dict_get_key).
  rewrite (df_getitem_Some _ _ _ Hpath), (df_getitem_Some _ _ _ Htag),
    (df_getitem_Some _ _ _ Henergy).
  by rewrite (traverse_text _ (Path_of_str env)).
Qed.

(** The [file] branch of [process_csv]. *)
Lemma process_csv_file env path_to_csv df names tags energies :
  read_csv env path_to_csv = inr df →
  "path" ∉ dict_keys df →
  dict_get df "file" = Some (CStr <$> names) →
  dict_get df "tag" = Some tags →
  dict_get df "reference_energy" = Some energies →
  process_csv env path_to_csv
  = inr ((fun fname => joinpath (resolve env (parent path_to_csv))
                         (Path_of_str env fname)) <$> names,
         tags, energies).
Proof.
  intros Hread Hpath Hfile Htag Henergy. unfold process_csv. rewrite Hread.
  rewrite bool_decide_eq_false_2 by done.
  rewrite (df_getitem_Some _ _ _ Hfile), (df_getitem_Some _ _ _ Htag),
    (df_getitem_Some _ _ _ Henergy).
  by rewrite (traverse_text _
    (fun fname => joinpath (resolve env (parent path_to_csv))
                    (Path_of_str env fname))).
Qed.
End loader_facts.

(** C8. Path resolution of the loader: with a [path] column, the paths
    are the values of that column, parsed and otherwise unchanged; with a
    [file] column only, every value is joined to the resolved parent
    directory of the CSV file, so that a relative value lies below that
    directory; tags and reference energies are the columns as they are, so
    row [i] of all three results comes from row [i] of the table. *)
Theorem loader_path_resolution (env : Env) (path_to_csv : Path) (df : DataFrame)
    (tags energies : list Cell) :
  read_csv env path_to_csv = inr df →
  dict_get df "tag" = Some tags →
  dict_get df "reference_energy" = Some energies →
  (∀ names, dict_get df "path" = Some (CStr <$> names) →
     process_csv env path_to_csv
     = inr (Path_of_str env <$> names, tags, energies))
  ∧ (∀ names, "path" ∉ dict_keys df →
       dict_get df "file" = Some (CStr <$> names) →
       let base := resolve env (parent path_to_csv) in
       ∃ paths,
         process_csv env path_to_csv = inr (paths, tags, energies)
         ∧ length paths = length names
         ∧ ∀ i fname, names !! i = Some fname →
             paths !! i = Some (joinpath base (Path_of_str env fname))
             ∧ (absolute (Path_of_str env fname) = false →
                  paths !! i
                  = Some {| absolute := absolute base;
                            parts := parts base ++ parts (Path_of_str env fname) |})).
Proof.
  intros Hread Htag Henergy. split.
  - intros names Hpath. by eapply process_csv_path.
  - intros names Hnopath Hfile base. eexists. split; [|split].
    + by eapply process_csv_file.
    + by rewrite length_fmap.
    + intros i fname Hi. rewrite list_lookup_fmap, Hi. simpl.
      split; [done|]. intros Hrel. unfold joinpath. by rewrite Hrel.
Qed.

Lemma loader_path_resolution_witness :
  process_csv Example.env Example.csv
  = inr ([ {| absolute := false; parts := ["tests"; "a.xyz"] |};
           {| absolute := false; parts := ["tests"; "b.xyz"] |} ],
         [CStr "dimer"; CStr "trimer"],
         [CNum (Qc_of_Z 1); CNum (Qc_of_Z 2)]).
Proof.
  destruct (proj2 (loader_path_resolution Example.env Example.csv
                     Example.file_table
                     [CStr "dimer"; CStr "trimer"]
                     [CNum (Qc_of_Z 1); CNum (Qc_of_Z 2)]
                     eq_refl eq_refl eq_refl) ["a.xyz"; "b.xyz"])
    as (paths & Hrun & Hlen & Hrows).
  - apply (bool_decide_eq_false_1 _). vm_compute. reflexivity.
  - reflexivity.
  - rewrite Hrun. f_equal. f_equal.
    destruct paths as [|p0 [|p1 [|??]]]; try discriminate Hlen.
    destruct (Hrows 0%nat "a.xyz" eq_refl) as [_ H0].
    destruct (Hrows 1%nat "b.xyz" eq_refl) as [_ H1].
    specialize (H0 eq_refl). specialize (H1 eq_refl).
    injection H0 as ->. injection H1 as ->. reflexivity.
Defined.

(** C10. When the table has both a [path] and a [file] column, the
    loader uses [path]: the result is built from the columns [path], [tag]
    and [reference_energy] alone, no exception is raised, and a table that
    differs in the [file] column only, whatever it holds, gives the same
    result. *)
Theorem path_column_wins (env : Env) (path_to_csv : Path) (df : DataFrame)
    (names : list string) (tags energies : list Cell) :
  read_csv env path_to_csv = inr df →
  "file" ∈ dict_keys df →
  dict_get df "path" = Some (CStr <$> names) →
  dict_get df "tag" = Some tags →
  dict_get df "reference_energy" = Some energies →
  process_csv env path_to_csv = inr (Path_of_str env <$> names, tags, energies)
  ∧ ∀ df' : DataFrame,
      (∀ c, c ≠ "file" → dict_get df' c = dict_get df c) →
      process_csv {| read_csv := fun _ => inr df';
                     Path_of_str := Path_of_str env;
                     resolve := resolve env |} path_to_csv
      = process_csv env path_to_csv.
Proof.
  intros Hread _ Hpath Htag Henergy.
  assert (process_csv env path_to_csv
          = inr (Path_of_str env <$> names, tags, energies)) as Hrun.
  { by eapply process_csv_path. }
  split; [done|]. intros df' Hsame. rewrite Hrun.
  apply (process_csv_path
           {| read_csv := fun _ => inr df';
              Path_of_str := Path_of_str env;
              resolve := resolve env |} path_to_csv df');
    [done|..]; by rewrite Hsame.
Qed.

Lemma path_column_wins_witness :
  process_csv Example.env Example.both_csv
  = inr ([ {| absolute := false; parts := ["data"; "a.xyz"] |};
           {| absolute := false; parts := ["data"; "b.xyz"] |} ],
         [CStr "dimer"; CStr "trimer"],
         [CNum (Qc_of_Z 1); CNum (Qc_of_Z 2)]).
Proof.
  refine (proj1 (path_column_wins Example.env Example.both_csv Example.both_table
                   ["data/a.xyz"; "data/b.xyz"]
                   [CStr "dimer"; CStr "trimer"]
                   [CNum (Qc_of_Z 1); CNum (Qc_of_Z 2)]
                   eq_refl _ eq_refl eq_refl eq_refl)).
  apply (bool_decide_eq_true_1 _). vm_compute. reflexivity.
Defined.

(** ** The free output directory *)

Section next_free_folder_facts.
Implicit Types (fs : FileSystem) (base : Path).

Lemma candidate_named base i :
  name base ≠ "" → candidate base i = inr (sibling base i).
Proof. intros Hname. unfold candidate, with_name. by rewrite decide_False. Qed.

#[local] Instance sibling_inj base : Inj (=) (=) (sibling base).
Proof.
  intros i j [= Heq]. apply app_inj_tail in Heq as [_ Heq].
  apply (inj (String.app (name base))) in Heq.
  apply (inj (String.app "_")) in Heq. by apply (inj pretty) in Heq.
Qed.

(** [exists()] answers [True] only for an entry, and one that leads
    somewhere. *)
Lemma path_exists_true fs p :
  path_exists fs p = inr true → (p, Reachable) ∈ entries fs.
Proof.
  unfold path_exists. destruct (stat_error fs p); [done|].
  intros [= Hin]. by apply bool_decide_eq_true in Hin.
Qed.

Lemma path_exists_is_entry fs p :
  path_exists fs p = inr true → is_entry fs p = true.
Proof.
  intros Hin%path_exists_true. apply bool_decide_eq_true.
  apply list_elem_of_fmap. by exists (p, Reachable).
Qed.

(** A finite file system leaves one of the first candidates free. *)
Lemma free_sibling fs base :
  ∃ j, j ≤ length (entries fs) ∧ path_exists fs (sibling base j) ≠ inr true.
Proof.
  set (n := length (entries fs)).
  destruct (decide (Exists (fun j => path_exists fs (sibling base j) ≠ inr true)
                      (seq 0 (S n)))) as [Hex|Hall].
  - apply Exists_exists in Hex as (j & Hj & Hfree).
    apply elem_of_seq in Hj. exists j. split; [lia|done].
  - exfalso. apply not_Exists_Forall in Hall; [|apply _].
    assert ((fun j => (sibling base j, Reachable)) <$> seq 0 (S n)
            ⊆+ entries fs) as Hsub.
    { apply NoDup_submseteq.
      - apply NoDup_fmap_2; [|apply NoDup_seq].
        intros i j Heq. apply (f_equal fst) in Heq. simpl in Heq.
        by apply (inj (sibling base)).
      - intros p (j & -> & Hj)%list_elem_of_fmap. apply path_exists_true.
        rewrite Forall_forall in Hall. specialize (Hall j Hj). simpl in Hall.
        by destruct (decide (path_exists fs (sibling base j) = inr true)). }
    apply submseteq_length in Hsub.
    rewrite length_fmap, length_seq in Hsub. unfold n in Hsub. lia.
Qed.

(** The first candidate at which the loop stops exists. *)
Lemma first_free_sibling fs base :
  ∃ j, j ≤ length (entries fs)
       ∧ path_exists fs (sibling base j) ≠ inr true
       ∧ (∀ j', j' < j → path_exists fs (sibling base j') = inr true).
Proof.
  destruct (free_sibling fs base) as (j & Hj & Hfree).
  revert Hj Hfree. induction j as [j IH] using lt_wf_ind. intros Hj Hfree.
  destruct (decide (Exists (fun j' => path_exists fs (sibling base j') ≠ inr true)
                      (seq 0 j))) as [Hex|Hall].
  - apply Exists_exists in Hex as (j' & Hj' & Hfree').
    apply elem_of_seq in Hj'. apply (IH j'); [lia|lia|done].
  - apply not_Exists_Forall in Hall; [|apply _].
    exists j. split_and!; [done..|]. intros j' Hj'.
    rewrite Forall_forall in Hall.
    specialize (Hall j'). simpl in Hall.
    destruct (decide (path_exists fs (sibling base j') = inr true)); [done|].
    exfalso. apply Hall; [|done]. apply elem_of_seq. lia.
Qed.

(** The loop stops at the first candidate from [i] on for which [exists()]
    does not answer [True], once the fuel reaches it: it returns the
    candidate, or passes on the error of the test. *)
Lemma next_free_folder_loop_first fs base fuel i j :
  name base ≠ "" →
  i ≤ j → j < i + fuel →
  path_exists fs (sibling base j) ≠ inr true →
  (∀ j', i ≤ j' → j' < j → path_exists fs (sibling base j') = inr true) →
  next_free_folder_loop fs base fuel i
  = Some (match path_exists fs (sibling base j) with
          | inl e => inl e
          | inr _ => inr (sibling base j)
          end).
Proof.
  intros Hname. revert i.
  induction fuel as [|fuel IH]; intros i Hij Hfuel Hfree Hbusy.
  { lia. }
  simpl. rewrite candidate_named by done.
  destruct (decide (i = j)) as [->|Hne].
  - destruct (path_exists fs (sibling base j)) as [e|[]]; done.
  - rewrite Hbusy by lia. simpl.
    apply IH; [lia|lia|done|]. intros j' Hlo Hhi. apply Hbusy; lia.
Qed.

(** What the loop returns is a candidate for which [exists()] answers
    [False]. *)
Lemma next_free_folder_loop_free fs base fuel i result :
  next_free_folder_loop fs base fuel i = Some (inr result) →
  (∃ j, candidate base j = inr result) ∧ path_exists fs result = inr false.
Proof.
  revert i. induction fuel as [|fuel IH]; intros i; simpl; [done|].
  destruct (candidate base i) as [e|c] eqn:Hc; [done|].
  destruct (path_exists fs c) as [e|[]] eqn:Hexists; simpl; [done| |].
  - apply IH.
  - intros [= <-]. split; [by exists i|done].
Qed.
End next_free_folder_facts.

(** C9, as the code has it.  The helper goes by [exists()], which follows
    symbolic links.  For every base path: when [exists()] is false for the
    base, the helper returns the base itself; when it is true and the base
    has a name (a final component), the helper goes through [base_0],
    [base_1], ... in order and stops, with enough fuel for the entries of
    the file system, at the first one for which [exists()] is not true: it
    returns that candidate, or passes on the error of the test; an error of
    the test of the base is passed on as well.  Whatever path the helper
    returns, [exists()] is false for it. *)
Theorem next_free_folder_spec (fs : FileSystem) (base : Path) :
  (path_exists fs base = inr false →
     ∀ fuel, next_free_folder fs fuel base = Some (inr base))
  ∧ (path_exists fs base = inr true → name base ≠ "" →
       ∃ i result,
         candidate base i = inr result
         ∧ (∀ j, j < i →
              ∃ c, candidate base j = inr c ∧ path_exists fs c = inr true)
         ∧ (path_exists fs result = inr false
              ∧ (∀ fuel, length (entries fs) < fuel →
                   next_free_folder fs fuel base = Some (inr result))
            ∨ ∃ e, path_exists fs result = inl e
                   ∧ ∀ fuel, length (entries fs) < fuel →
                       next_free_folder fs fuel base = Some (inl e)))
  ∧ (∀ e, path_exists fs base = inl e →
       ∀ fuel, next_free_folder fs fuel base = Some (inl e))
  ∧ (∀ fuel result, next_free_folder fs fuel base = Some (inr result) →
       path_exists fs result = inr false).
Proof.
  unfold next_free_folder. split_and!.
  - by intros ->.
  - intros Hbase Hname. rewrite Hbase. simpl.
    destruct (first_free_sibling fs base) as (i & Hi & Hfree & Hbusy).
    exists i, (sibling base i). split_and!.
    + by apply candidate_named.
    + intros j Hj. exists (sibling base j). split; [by apply candidate_named|].
      by apply Hbusy.
    + assert (∀ fuel, length (entries fs) < fuel →
                next_free_folder_loop fs base fuel 0
                = Some (match path_exists fs (sibling base i) with
                        | inl e => inl e
                        | inr _ => inr (sibling base i)
                        end)) as Hrun.
      { intros fuel Hfuel. apply next_free_folder_loop_first; try done; try lia.
        intros j' _ Hlt. by apply Hbusy. }
      destruct (path_exists fs (sibling base i)) as [e|[]] eqn:Hexists.
      * right. by exists e.
      * done.
      * by left.
  - by intros e ->.
  - intros fuel result. destruct (path_exists fs base) as [e|[]] eqn:Hbase; simpl.
    + done.
    + by intros [_ ?]%next_free_folder_loop_free.
    + by intros [= <-].
Qed.

Lemma next_free_folder_spec_witness :
  ∃ i result,
    candidate Example.out i = inr result
    ∧ (∀ j, j < i →
         ∃ c, candidate Example.out j = inr c
              ∧ path_exists Example.output_folders c = inr true)
    ∧ (path_exists Example.output_folders result = inr false
         ∧ (∀ fuel, length (entries Example.output_folders) < fuel →
              next_free_folder Example.output_folders fuel Example.out
              = Some (inr result))
       ∨ ∃ e, path_exists Example.output_folders result = inl e
              ∧ ∀ fuel, length (entries Example.output_folders) < fuel →
                  next_free_folder Example.output_folders fuel Example.out
                  = Some (inl e)).
Proof.
  apply (proj1 (proj2 (next_free_folder_spec Example.output_folders Example.out))).
  - vm_compute. reflexivity.
  - vm_compute. discriminate.
Defined.

(** C9, as stated, fails in three ways.  [Path(".")] exists and has no
    name: [with_name] raises on it, so no path is returned whatever the
    fuel.  Where [out] is a symbolic link whose target is missing,
    [exists()] is false for it although the directory has an entry of that
    name: the helper returns [out] itself, a path that names an existing
    entry.  And next to an existing folder whose name has 254 letters, the
    test of the first candidate fails, the name being too long, and the
    helper passes the error on instead of returning a path. *)
Lemma next_free_folder_counterexample :
  (path_exists Example.empty_folder Example.here = inr true
   ∧ ¬ ∃ fuel result,
         next_free_folder Example.empty_folder fuel Example.here
         = Some (inr result))
  ∧ (is_entry Example.dangling_out Example.out = true
     ∧ ∀ fuel,
         next_free_folder Example.dangling_out fuel Example.out
         = Some (inr Example.out))
  ∧ (path_exists Example.name_limit Example.long_base = inr true
     ∧ name Example.long_base ≠ ""
     ∧ ¬ ∃ fuel result,
           next_free_folder Example.name_limit fuel Example.long_base
           = Some (inr result)).
Proof.
  split_and!.
  - reflexivity.
  - intros ([|fuel] & result & Hrun); discriminate Hrun.
  - reflexivity.
  - intros fuel. reflexivity.
  - vm_compute. reflexivity.
  - vm_compute. discriminate.
  - intros ([|fuel] & result & Hrun); vm_compute in Hrun; discriminate Hrun.
Qed.

(** ** Reordering the initial parameters *)

Section reordering_facts.
Implicit Types (self : Fitter) (minimize : Minimize) (x xs : list scalar).

Lemma aligned_keys {K X} (ks ks' : list K) (x x' : list X) :
  aligned ks ks' x x' → ks ≡ₚ ks'.
Proof.
  intros (Hx & Hx' & Hperm). apply (fmap_Permutation fst) in Hperm.
  rewrite !fst_zip in Hperm by lia. done.
Qed.

Lemma aligned_fmap {K X} (g : K → X) (ks ks' : list K) :
  ks ≡ₚ ks' → aligned ks ks' (g <$> ks) (g <$> ks').
Proof.
  intros Hperm. unfold aligned. rewrite !length_fmap. split_and!; [done..|].
  assert (∀ l : list K, zip l (g <$> l) = (fun k => (k, g k)) <$> l) as Hzip.
  { intros l. induction l as [|k l IH]; [done|]. csimpl. by f_equal. }
  rewrite !Hzip. by apply fmap_Permutation.
Qed.

Lemma aligned_values {K X Y} (g : X → Y) (ks ks' : list K) (x x' : list X) :
  aligned ks ks' x x' → aligned ks ks' (g <$> x) (g <$> x').
Proof.
  intros (Hx & Hx' & Hperm). unfold aligned. rewrite !length_fmap.
  split_and!; [done..|].
  assert (∀ (l : list K) (y : list X),
            zip l (g <$> y) = prod_map id g <$> zip l y) as Hzip.
  { intros l y. by rewrite prod_map_zip, list_fmap_id. }
  rewrite !Hzip. by apply fmap_Permutation.
Qed.

(** Vectors that are aligned under the keys of two equal initial
    mappings are rebuilt into equal mappings. *)
Lemma rebuild_aligned self self' x x' :
  unique_keys (Dict (initial_parameters self)) = true →
  unique_keys (Dict (initial_parameters self')) = true →
  aligned (scipy_keys self) (scipy_keys self') x x' →
  ∃ p p',
    unflatten_dict (dict_of_pairs (zip (scipy_keys self) x)) = p
    ∧ unflatten_dict (dict_of_pairs (zip (scipy_keys self') x')) = p'
    ∧ valid_dict p = true ∧ valid_dict p' = true
    ∧ dict_eqb p p' = true.
Proof.
  intros Hv Hv' (Hx & Hx' & Hperm).
  destruct (rebuild self x Hv Hx) as (p & Hp & Hflat & Hvalid).
  destruct (rebuild self' x' Hv' Hx') as (p' & Hp' & Hflat' & Hvalid').
  exists p, p'. split_and!; [done..|].
  apply flatten_dict_eqb; [done..|]. by rewrite Hflat, Hflat'.
Qed.

Lemma scipy_bounds_aligned self self' :
  bounds self = bounds self' →
  scipy_keys self ≡ₚ scipy_keys self' →
  aligned_bounds (scipy_keys self) (scipy_keys self')
    (scipy_bounds self) (scipy_bounds self').
Proof.
  intros Hb Hperm. unfold scipy_bounds. rewrite !length_map, <- Hb.
  rewrite <- (Permutation_length Hperm).
  destruct (Nat.eqb _ _); [done|]. simpl. by apply aligned_fmap.
Qed.
End reordering_facts.

(** C7, as the code has it: when the backend commutes with reordering the
    coordinates and the objective does not look at the insertion order of its
    argument, the fits from two initial mappings that are equal up to
    insertion order return equal parameters. *)
Theorem reordering_invariance (minimize : Minimize)
    (objective : pydict scalar → scalar) (bounds : option (pydict bound))
    (init init' : pydict scalar) :
  permutation_equivariant minimize →
  order_insensitive objective →
  unique_keys (Dict init) = true → unique_keys (Dict init') = true →
  dict_eqb init init' = true →
  same_optimum minimize objective bounds init init'.
Proof.
  intros Hequi Hobj Hv Hv' Heq. unfold same_optimum.
  set (self := Fitter_init objective init bounds).
  set (self' := Fitter_init objective init' bounds).
  assert (flatten_dict init ≡ₚ flatten_dict init') as Hflat.
  { by apply dict_eqb_flatten. }
  assert (aligned (scipy_keys self) (scipy_keys self')
            (flatten_dict init).*2 (flatten_dict init').*2) as Hx0.
  { unfold aligned, scipy_keys, dict_keys. simpl. rewrite !length_fmap, !zip_fst_snd.
    done. }
  pose proof (aligned_keys _ _ _ _ Hx0) as Hkeys.
  assert (aligned (scipy_keys self) (scipy_keys self')
            (res_x (minimize (f_scipy self) (flatten_dict init).*2
                      (scipy_bounds self)))
            (res_x (minimize (f_scipy self') (flatten_dict init').*2
                      (scipy_bounds self')))) as Hres.
  { apply Hequi.
    - by apply flatten_unique_NoDup.
    - done.
    - by apply scipy_bounds_aligned.
    - intros x x' Hx.
      destruct (rebuild_aligned self self' x x' Hv Hv' Hx)
        as (p & p' & Hp & Hp' & Hvp & Hvp' & Hpp').
      unfold f_scipy. rewrite Hp, Hp'. by apply Hobj. }
  destruct (rebuild_aligned self self' _ _ Hv Hv' Hres)
    as (opt & opt' & Hopt & Hopt' & _ & _ & Hsame).
  exists opt, opt'. split_and!; [| |done].
  - rewrite (fit_scipy_run minimize self Hv). simpl. by rewrite <- Hopt.
  - rewrite (fit_scipy_run minimize self' Hv'). simpl. by rewrite <- Hopt'.
Qed.

Section example_facts.
(** Equality of valid mappings is symmetric. *)
Lemma dict_eqb_sym {A} `{EqDecision A} (p q : pydict A) :
  valid_dict p = true → valid_dict q = true →
  dict_eqb p q = true → dict_eqb q p = true.
Proof.
  intros Hp Hq Heq. apply flatten_dict_eqb; [done..|].
  symmetry. by apply dict_eqb_flatten; [apply valid_dict_unique_keys..|].
Qed.

Lemma dict_eqb_partner {A} `{EqDecision A} (p q : pydict A) k c :
  dict_eqb p q = true → dict_get p k = Some c →
  ∃ c', dict_get q k = Some c' ∧ nested_eqb c c' = true.
Proof.
  intros [_ Hall]%nested_eqb_Dict Hget%dict_get_Some.
  rewrite Forall_forall in Hall. apply (Hall (k, c) Hget).
Qed.

Lemma param_eqb p q k :
  valid_dict p = true → valid_dict q = true →
  dict_eqb p q = true → Example.param p k = Example.param q k.
Proof.
  intros Hp Hq Heq. unfold Example.param.
  destruct (dict_get p k) as [c|] eqn:Hget.
  - destruct (dict_eqb_partner p q k c Heq Hget) as (c' & -> & Hc).
    destruct c as [v|sub], c' as [v'|sub']; try discriminate Hc; [|done].
    cbn in Hc. by apply bool_decide_eq_true in Hc as ->.
  - destruct (dict_get q k) as [c'|] eqn:Hget'; [|done].
    apply dict_eqb_sym in Heq; [|done..].
    destruct (dict_eqb_partner q p k c' Heq Hget') as (c & Hc & _).
    congruence.
Qed.

Lemma objective_order_insensitive : order_insensitive Example.objective.
Proof.
  intros p q Hp Hq Heq. unfold Example.objective.
  by rewrite !(param_eqb p q) by done.
Qed.

Lemma uniform_step_equivariant : permutation_equivariant Example.uniform_step.
Proof.
  intros K ks ks' f f' x0 x0' b b' _ Hx0 _ Hf. unfold Example.uniform_step. simpl.
  set (step := fun x : scalar => (x + Qc_of_Z 1)%Qc).
  rewrite (Hf (step <$> x0) (step <$> x0')) by (by apply aligned_values).
  rewrite (Hf x0 x0') by done.
  destruct (bool_decide _); [by apply aligned_values|done].
Qed.
End example_facts.

Lemma reordering_invariance_witness :
  same_optimum Example.uniform_step Example.objective (Some Example.x_bounds)
    Example.xy Example.yx.
Proof.
  apply reordering_invariance.
  - exact uniform_step_equivariant.
  - exact objective_order_insensitive.
  - vm_compute. reflexivity.
  - vm_compute. reflexivity.
  - vm_compute. reflexivity.
Defined.

(** C7, as stated, fails for a backend that treats the coordinates
    differently: with one step along the first coordinate, the fit from
    [{x: 0, y: 0}] moves [x] and the fit from [{y: 0, x: 0}] moves nothing. *)
Lemma reordering_changes_optimum :
  unique_keys (Dict Example.xy) = true
  ∧ unique_keys (Dict Example.yx) = true
  ∧ dict_eqb Example.xy Example.yx = true
  ∧ ¬ same_optimum Example.first_coordinate_step Example.objective None
        Example.xy Example.yx.
Proof.
  split_and!; [vm_compute; reflexivity..|].
  intros (opt & opt' & Hopt & Hopt' & Heq).
  vm_compute in Hopt, Hopt'. injection Hopt as <-. injection Hopt' as <-.
  vm_compute in Heq. discriminate Heq.
Qed.

(** * Further properties of the code *)

(** ** More on dictionaries *)

Section dict_more.
Context {K : Type} `{EqDecision K} {X : Type}.
Implicit Types (d : list (K * X)) (k : K) (x : X).

Lemma dict_get_app d d' k :
  dict_get (d ++ d') k
  = match dict_get d k with Some x => Some x | None => dict_get d' k end.
Proof.
  induction d as [|[k' x'] d IH]; simpl; [done|].
  by destruct (decide (k = k')).
Qed.

Lemma dict_get_set_ne d k k' x :
  k ≠ k' → dict_get (dict_set d k x) k' = dict_get d k'.
Proof.
  intros Hne. induction d as [|[k0 x0] d IH]; simpl.
  - destruct (decide (k' = k)); [congruence|done].
  - destruct (decide (k = k0)) as [->|Hk0]; simpl.
    + destruct (decide (k' = k0)); [congruence|done].
    + destruct (decide (k' = k0)); [done|]. apply IH.
Qed.

Lemma dict_set_keys d k x :
  (dict_set d k x).*1 = if decide (k ∈ d.*1) then d.*1 else d.*1 ++ [k].
Proof.
  induction d as [|[k0 x0] d IH].
  - by destruct (decide (k ∈ ([] : list (K * X)).*1)) as [?%elem_of_nil|].
  - rewrite fmap_cons. cbn [dict_set fst].
    destruct (decide (k = k0)) as [->|Hk0].
    + rewrite decide_True; [done|]. apply list_elem_of_here.
    + rewrite fmap_cons, IH. cbn [fst].
      destruct (decide (k ∈ d.*1)) as [Hin|Hout].
      * rewrite decide_True; [done|]. by apply list_elem_of_further.
      * rewrite decide_False; [done|]. by intros [?|?]%elem_of_cons.
Qed.

Lemma dict_set_NoDup d k x : NoDup d.*1 → NoDup (dict_set d k x).*1.
Proof.
  intros Hnd. rewrite dict_set_keys. destruct (decide (k ∈ d.*1)); [done|].
  apply NoDup_app. split_and!; [done| |apply NoDup_singleton].
  by intros k' Hk' ->%list_elem_of_singleton.
Qed.

Lemma dict_get_None_iff d k : dict_get d k = None ↔ k ∉ d.*1.
Proof.
  split; [|apply dict_get_None].
  intros Hnone Hin. apply dict_get_is_Some in Hin as [x Hx]. congruence.
Qed.
End dict_more.

(** ** More on the application of parameters *)

Section applier_more.
Context {V : Type}.
Implicit Types (scme : Potential V) (params : list (string * V)).

(** What the potential has under a name after all the assignments: what the
    assignment made last leaves there, if there is one. *)
Lemma lookup_setattr_all scme params k :
  attributes (setattr_all scme params) !! k
  = match dict_get (reverse params) k with
    | Some v => Some (assigned_to (attributes scme !! k) v)
    | None => attributes scme !! k
    end.
Proof.
  revert scme. induction params as [|[k0 v0] params IH]; intros scme; [done|].
  change (setattr_all scme ((k0, v0) :: params))
    with (setattr_all (store scme k0 v0) params).
  rewrite IH, reverse_cons, dict_get_app. unfold store. simpl.
  destruct (decide (k = k0)) as [->|Hne].
  - rewrite lookup_insert_eq.
    destruct (dict_get (reverse params) k0); [by rewrite assigned_to_twice|done].
  - rewrite lookup_insert_ne by done.
    by destruct (dict_get (reverse params) k).
Qed.

(** A call that does not raise has found every name and has had every
    assignment accepted. *)
Lemma applier_no_exception scme params scme' :
  SCMEParameterApplier_call scme params = (None, scme') →
  (∀ k, k ∈ params.*1 → hasattr scme k = true)
  ∧ (∀ k v, (k, v) ∈ params → refuses scme k v = None)
  ∧ scme' = setattr_all scme params.
Proof.
  revert scme. induction params as [|[k v] params IH]; intros scme; simpl.
  { intros [= <-]. split_and!; [by intros ? ?%elem_of_nil| |done].
    by intros ?? ?%elem_of_nil. }
  destruct (hasattr scme k) eqn:Hk; [|done]. unfold setattr.
  destruct (refuses scme k v) eqn:Hv; [done|].
  intros (Hknown & Hacc & ->)%IH. split_and!; [| |done].
  - intros k' [->|Hin]%elem_of_cons; [done|].
    rewrite <- (hasattr_store scme k v) by done. by apply Hknown.
  - intros k' v' [[= -> ->]|Hin]%elem_of_cons; [done|]. by apply Hacc.
Qed.

Lemma applier_all_known scme params :
  (∀ k, k ∈ params.*1 → hasattr scme k = true) →
  (∀ k v, (k, v) ∈ params → refuses scme k v = None) →
  SCMEParameterApplier_call scme params = (None, setattr_all scme params).
Proof.
  intros Hall Hacc. destruct (applier_known scme params [] Hall Hacc) as [Hrun _].
  by rewrite app_nil_r in Hrun.
Qed.
End applier_more.

(** X1. When every name of the mapping is an attribute of the potential and
    the potential accepts every assignment, the application raises nothing;
    afterwards every parameter of the mapping reads back the value given for
    it, and every other attribute is as before. *)
Theorem applier_succeeds {V : Type} (scme : Potential V)
    (params : list (string * V)) :
  NoDup (dict_keys params) →
  (∀ k, k ∈ dict_keys params → hasattr scme k = true) →
  (∀ k v, (k, v) ∈ params → refuses scme k v = None) →
  ∃ scme',
    SCMEParameterApplier_call scme params = (None, scme')
    ∧ (∀ k v, (k, v) ∈ params → getattr scme' k = Some v)
    ∧ (∀ k, k ∉ dict_keys params →
         attributes scme' !! k = attributes scme !! k).
Proof.
  intros Hnd Hall Hacc. exists (setattr_all scme params).
  destruct (setattr_all_lookup scme params Hnd) as [Hin Hout].
  split_and!; [|done..]. by apply applier_all_known.
Qed.

Lemma applier_succeeds_witness :
  ∃ scme',
    SCMEParameterApplier_call Example.full_potential Example.with_unknown
    = (None, scme')
    ∧ (∀ k v, (k, v) ∈ Example.with_unknown → getattr scme' k = Some v)
    ∧ (∀ k, k ∉ dict_keys Example.with_unknown →
         attributes scme' !! k = attributes Example.full_potential !! k).
Proof.
  apply (applier_succeeds Example.full_potential Example.with_unknown).
  - apply (bool_decide_eq_true_1 _). vm_compute. reflexivity.
  - intros k Hk. apply list_elem_of_In in Hk. simpl in Hk.
    destruct Hk as [<-|[<-|[<-|[]]]]; vm_compute; reflexivity.
  - intros k v Hkv. apply list_elem_of_In in Hkv. simpl in Hkv.
    destruct Hkv as [[= <- <-]|[[= <- <-]|[[= <- <-]|[]]]]; reflexivity.
Defined.

(** X2. The application never adds or removes an attribute: whether it
    raises or not, the potential it leaves has the attributes it had. *)
Theorem applier_keeps_attributes {V : Type} (scme : Potential V)
    (params : list (string * V)) (key : string) :
  hasattr (SCMEParameterApplier_call scme params).2 key = hasattr scme key.
Proof.
  revert scme. induction params as [|[k v] params IH]; intros scme; [done|].
  simpl. destruct (hasattr scme k) eqn:Hk; [|done]. unfold setattr.
  destruct (refuses scme k v); [done|].
  by rewrite IH, hasattr_store.
Qed.

(** X3. The order of the parameters does not matter when the application
    succeeds: two mappings with the same entries in different orders leave
    the same potential. *)
Theorem applier_order_insensitive {V : Type} (scme : Potential V)
    (params params' : list (string * V)) :
  NoDup (dict_keys params) →
  params ≡ₚ params' →
  (∀ k, k ∈ dict_keys params → hasattr scme k = true) →
  (∀ k v, (k, v) ∈ params → refuses scme k v = None) →
  SCMEParameterApplier_call scme params' = SCMEParameterApplier_call scme params
  ∧ (SCMEParameterApplier_call scme params).1 = None.
Proof.
  intros Hnd Hperm Hall Hacc.
  assert (NoDup (dict_keys params')) as Hnd'.
  { unfold dict_keys. by rewrite <- Hperm. }
  rewrite (applier_all_known scme params) by done.
  rewrite (applier_all_known scme params').
  2:{ intros k Hk. apply Hall. unfold dict_keys. by rewrite Hperm. }
  2:{ intros k v Hkv. apply Hacc. by rewrite Hperm. }
  split; [|done]. f_equal. apply Potential_eq; [|by rewrite !refuses_setattr_all].
  apply map_eq. intros k.
  destruct (setattr_all_attributes scme params Hnd) as [Hin Hout].
  destruct (setattr_all_attributes scme params' Hnd') as [Hin' Hout'].
  destruct (decide (k ∈ dict_keys params)) as [Hk|Hk].
  - apply list_elem_of_fmap in Hk as ([k' v] & -> & Hkv). simpl.
    rewrite (Hin k' v Hkv). apply Hin'. by rewrite <- Hperm.
  - rewrite Hout by done. apply Hout'. unfold dict_keys in *. by rewrite <- Hperm.
Qed.

Lemma applier_order_insensitive_witness :
  SCMEParameterApplier_call Example.full_potential (reverse Example.with_unknown)
  = SCMEParameterApplier_call Example.full_potential Example.with_unknown
  ∧ (SCMEParameterApplier_call Example.full_potential Example.with_unknown).1
    = None.
Proof.
  apply (applier_order_insensitive Example.full_potential Example.with_unknown).
  - apply (bool_decide_eq_true_1 _). vm_compute. reflexivity.
  - symmetry. apply reverse_Permutation.
  - intros k Hk. apply list_elem_of_In in Hk. simpl in Hk.
    destruct Hk as [<-|[<-|[<-|[]]]]; vm_compute; reflexivity.
  - intros k v Hkv. apply list_elem_of_In in Hkv. simpl in Hkv.
    destruct Hkv as [[= <- <-]|[[= <- <-]|[[= <- <-]|[]]]]; reflexivity.
Defined.

(** X4. A successful application is idempotent: applying the same mapping
    again to the potential it left raises nothing and changes nothing. *)
Theorem applier_idempotent {V : Type} (scme scme' : Potential V)
    (params : list (string * V)) :
  SCMEParameterApplier_call scme params = (None, scme') →
  SCMEParameterApplier_call scme' params = (None, scme').
Proof.
  intros (Hall & Hacc & ->)%applier_no_exception.
  destruct (applier_known scme params [] Hall Hacc) as [_ Hdom].
  rewrite applier_all_known.
  2:{ intros k Hk. rewrite Hdom. by apply Hall. }
  2:{ intros k v Hkv. rewrite refuses_setattr_all. by apply Hacc. }
  f_equal. apply Potential_eq; [|by rewrite !refuses_setattr_all].
  apply map_eq. intros k. rewrite !lookup_setattr_all.
  destruct (dict_get (reverse params) k); [|done].
  by rewrite assigned_to_twice.
Qed.

Lemma applier_idempotent_witness :
  SCMEParameterApplier_call
    (setattr_all Example.full_potential Example.with_unknown)
    Example.with_unknown
  = (None, setattr_all Example.full_potential Example.with_unknown).
Proof.
  apply (applier_idempotent Example.full_potential).
  apply applier_all_known.
  - intros k Hk. apply list_elem_of_In in Hk. simpl in Hk.
    destruct Hk as [<-|[<-|[<-|[]]]]; vm_compute; reflexivity.
  - intros k v Hkv. apply list_elem_of_In in Hkv. simpl in Hkv.
    destruct Hkv as [[= <- <-]|[[= <- <-]|[[= <- <-]|[]]]]; reflexivity.
Defined.

(** ** The initial parameters taken from the defaults *)

Section create_initial_params_facts.
Context {V : Type}.
Implicit Types (acc defaults : list (string * V)) (names : list string).

Lemma dict_of_pairs_keys_from acc defaults k :
  k ∈ (fold_left (fun d kx => dict_set d kx.1 kx.2) defaults acc).*1
  ↔ k ∈ acc.*1 ∨ k ∈ defaults.*1.
Proof.
  revert acc. induction defaults as [|[k0 v0] defaults IH]; intros acc; simpl.
  { split; [by left|]. by intros [?|?%elem_of_nil]. }
  rewrite IH, dict_set_keys. simpl.
  destruct (decide (k0 ∈ acc.*1)) as [Hin|Hout].
  - rewrite elem_of_cons. split; [tauto|]. intros [?|[->|?]]; tauto.
  - rewrite elem_of_app, list_elem_of_singleton, elem_of_cons. tauto.
Qed.

(** [dict(pairs)] has the keys of the pairs. *)
Lemma dict_of_pairs_keys defaults k :
  k ∈ dict_keys (dict_of_pairs defaults) ↔ k ∈ dict_keys defaults.
Proof.
  unfold dict_keys, dict_of_pairs. rewrite dict_of_pairs_keys_from.
  split; [|by right]. by intros [?%elem_of_nil|?].
Qed.

Lemma default_missing defaults k :
  dict_get (dict_of_pairs defaults) k = None ↔ k ∉ dict_keys defaults.
Proof. by rewrite dict_get_None_iff, <- dict_of_pairs_keys. Qed.

(** The first name that is not among [known]. *)
Lemma first_unknown_name (known names : list string) :
  (∃ k, k ∈ names ∧ k ∉ known) →
  ∃ pre k post, names = pre ++ k :: post
                ∧ (∀ k', k' ∈ pre → k' ∈ known) ∧ k ∉ known.
Proof.
  induction names as [|k0 names IH]; [by intros (? & ?%elem_of_nil & _)|].
  intros (k & Hin & Hk). destruct (decide (k0 ∈ known)) as [Hk0|Hk0].
  - apply elem_of_cons in Hin as [->|Hin]; [done|].
    destruct IH as (pre & k' & post & -> & Hpre & Hk'); [by eauto|].
    exists (k0 :: pre), k', post. split_and!; [done| |done].
    intros k'' [->|?]%elem_of_cons; [done|by apply Hpre].
  - exists [], k0, names. split_and!; [done| |done]. by intros ? ?%elem_of_nil.
Qed.

Lemma create_initial_params_from_missing acc pre k post defaults :
  (∀ k', k' ∈ pre → k' ∈ dict_keys defaults) →
  k ∉ dict_keys defaults →
  create_initial_params_from acc (pre ++ k :: post) defaults = inl (KeyError k).
Proof.
  intros Hpre Hk. revert acc. induction pre as [|k0 pre IH]; intros acc; simpl.
  - by rewrite (proj2 (default_missing defaults k)).
  - destruct (dict_get (dict_of_pairs defaults) k0) as [v|] eqn:Hget.
    + apply IH. intros k' Hk'. apply Hpre. by apply list_elem_of_further.
    + apply default_missing in Hget. exfalso. apply Hget, Hpre, list_elem_of_here.
Qed.

(** The comprehension, when every name has a default. *)
Lemma create_initial_params_from_ok acc names defaults :
  (∀ k, k ∈ names → k ∈ dict_keys defaults) →
  ∃ result,
    create_initial_params_from acc names defaults = inr result
    ∧ (∀ k, dict_get result k
            = if decide (k ∈ names) then dict_get (dict_of_pairs defaults) k
              else dict_get acc k)
    ∧ (NoDup acc.*1 → NoDup result.*1)
    ∧ (NoDup (acc.*1 ++ names) → result.*1 = acc.*1 ++ names).
Proof.
  revert acc. induction names as [|k0 names IH]; intros acc Hall.
  { exists acc. split_and!; [done| | |].
    - intros k. rewrite decide_False; [done|]. apply not_elem_of_nil.
    - done.
    - by rewrite app_nil_r. }
  simpl. destruct (dict_get (dict_of_pairs defaults) k0) as [v|] eqn:Hget.
  2:{ apply default_missing in Hget. exfalso. apply Hget, Hall, list_elem_of_here. }
  destruct (IH (dict_set acc k0 v)) as (result & Hrun & Hlook & Hnd & Hkeys).
  { intros k Hk. apply Hall. by apply list_elem_of_further. }
  exists result. split_and!; [done| | |].
  - intros k. rewrite Hlook.
    destruct (decide (k ∈ names)) as [Hin|Hout].
    + rewrite decide_True; [done|]. by apply list_elem_of_further.
    + destruct (decide (k = k0)) as [->|Hne].
      * rewrite decide_True by apply list_elem_of_here. by rewrite dict_get_set.
      * rewrite decide_False by (by intros [?|?]%elem_of_cons).
        by apply dict_get_set_ne.
  - intros Hacc. by apply Hnd, dict_set_NoDup.
  - intros Hall'. rewrite Hkeys.
    + rewrite dict_set_keys, decide_False; [by rewrite <- app_assoc|].
      apply NoDup_app in Hall' as (_ & Hdis & _).
      intros Hin. apply (Hdis k0 Hin), list_elem_of_here.
    + rewrite dict_set_keys, decide_False; [by rewrite <- app_assoc|].
      apply NoDup_app in Hall' as (_ & Hdis & _).
      intros Hin. apply (Hdis k0 Hin), list_elem_of_here.
Qed.
End create_initial_params_facts.

(** X5. A name to adjust that has no default raises [KeyError] with that
    name: the first such name of the list. *)
Theorem create_initial_params_missing {V : Type} (adjustable_params : list string)
    (default_params : list (string * V)) :
  (∃ k, k ∈ adjustable_params ∧ k ∉ dict_keys default_params) →
  ∃ pre k post,
    adjustable_params = pre ++ k :: post
    ∧ (∀ k', k' ∈ pre → k' ∈ dict_keys default_params)
    ∧ (k ∉ dict_keys default_params)
    ∧ create_initial_params adjustable_params default_params = inl (KeyError k).
Proof.
  intros Hex.
  destruct (first_unknown_name (dict_keys default_params) adjustable_params Hex)
    as (pre & k & post & -> & Hpre & Hk).
  exists pre, k, post. split_and!; [done..|].
  by apply create_initial_params_from_missing.
Qed.

Lemma create_initial_params_missing_witness :
  ∃ pre k post,
    ["td"; "C8"; "te"] = pre ++ k :: post
    ∧ (∀ k', k' ∈ pre → k' ∈ dict_keys Example.defaults)
    ∧ (k ∉ dict_keys Example.defaults)
    ∧ create_initial_params ["td"; "C8"; "te"] Example.defaults
      = inl (KeyError k).
Proof.
  apply (create_initial_params_missing ["td"; "C8"; "te"] Example.defaults).
  exists "C8". split.
  - apply (bool_decide_eq_true_1 _). vm_compute. reflexivity.
  - apply (bool_decide_eq_false_1 _). vm_compute. reflexivity.
Defined.

(** X6. When every name to adjust has a default, the result maps exactly
    the names to adjust to their default values; its keys are distinct, and
    they are the names in the order given when no name is given twice. *)
Theorem create_initial_params_ok {V : Type} (adjustable_params : list string)
    (default_params : list (string * V)) :
  NoDup (dict_keys default_params) →
  (∀ k, k ∈ adjustable_params → k ∈ dict_keys default_params) →
  ∃ result,
    create_initial_params adjustable_params default_params = inr result
    ∧ NoDup (dict_keys result)
    ∧ (∀ k, dict_get result k
            = if decide (k ∈ adjustable_params) then dict_get default_params k
              else None)
    ∧ (NoDup adjustable_params → dict_keys result = adjustable_params).
Proof.
  intros Hnd Hall.
  destruct (create_initial_params_from_ok [] adjustable_params default_params Hall)
    as (result & Hrun & Hlook & Hkeys & Horder).
  exists result. split_and!; [done| | |].
  - apply Hkeys. constructor.
  - intros k. rewrite Hlook. by rewrite dict_of_pairs_NoDup.
  - intros Hnames. by apply Horder.
Qed.

Lemma create_initial_params_ok_witness :
  ∃ result,
    create_initial_params Example.adjustable Example.defaults = inr result
    ∧ NoDup (dict_keys result)
    ∧ (∀ k, dict_get result k
            = if decide (k ∈ Example.adjustable) then dict_get Example.defaults k
              else None)
    ∧ (NoDup Example.adjustable → dict_keys result = Example.adjustable).
Proof.
  apply (create_initial_params_ok Example.adjustable Example.defaults).
  - apply (bool_decide_eq_true_1 _). vm_compute. reflexivity.
  - intros k Hk. apply list_elem_of_In in Hk. simpl in Hk.
    destruct Hk as [<-|[<-|[]]]; apply (bool_decide_eq_true_1 _);
      vm_compute; reflexivity.
Defined.

(** X7. The initial parameters taken from the defaults can be applied: when
    every default is an attribute of the potential and the potential accepts
    the assignment of every default, the application of the result raises
    nothing, leaves the adjusted parameters at their default values and
    leaves the other attributes as they were. *)
Theorem initial_params_apply {V : Type} (scme : Potential V)
    (adjustable_params : list string) (default_params : list (string * V)) :
  NoDup (dict_keys default_params) →
  (∀ k, k ∈ adjustable_params → k ∈ dict_keys default_params) →
  (∀ k, k ∈ dict_keys default_params → hasattr scme k = true) →
  (∀ k v, (k, v) ∈ default_params → refuses scme k v = None) →
  ∃ initial_params scme',
    create_initial_params adjustable_params default_params = inr initial_params
    ∧ SCMEParameterApplier_call scme initial_params = (None, scme')
    ∧ (∀ k, k ∈ adjustable_params → getattr scme' k = dict_get default_params k)
    ∧ (∀ k, k ∉ adjustable_params →
         attributes scme' !! k = attributes scme !! k).
Proof.
  intros Hnd Hall Hattr Hacc.
  destruct (create_initial_params_from_ok [] adjustable_params default_params Hall)
    as (result & Hrun & Hlook & Hkeys & _).
  specialize (Hkeys (NoDup_nil_2)).
  assert (∀ k, k ∈ result.*1 → k ∈ adjustable_params) as Hsub.
  { intros k [v Hv]%dict_get_is_Some. rewrite Hlook in Hv.
    by destruct (decide (k ∈ adjustable_params)). }
  assert (∀ k v, (k, v) ∈ result → (k, v) ∈ default_params) as Hfrom.
  { intros k v Hkv. apply dict_get_Some.
    apply (dict_get_elem _ _ _ Hkeys) in Hkv. rewrite Hlook in Hkv.
    destruct (decide (k ∈ adjustable_params)); [|done].
    by rewrite dict_of_pairs_NoDup in Hkv. }
  exists result, (setattr_all scme result).
  destruct (setattr_all_lookup scme result Hkeys) as [Hin Hout].
  split_and!; [done| | |].
  - apply applier_all_known.
    + intros k Hk. by apply Hattr, Hall, Hsub.
    + intros k v Hkv. by apply Hacc, Hfrom.
  - intros k Hk. specialize (Hlook k). rewrite decide_True in Hlook by done.
    rewrite dict_of_pairs_NoDup in Hlook by done.
    destruct (dict_get_is_Some default_params k (Hall k Hk)) as [v Hv].
    rewrite Hv in Hlook |- *. apply Hin. by apply dict_get_Some.
  - intros k Hk. apply Hout. intros Hin'. by apply Hk, Hsub.
Qed.

Lemma initial_params_apply_witness :
  ∃ initial_params scme',
    create_initial_params Example.adjustable Example.defaults = inr initial_params
    ∧ SCMEParameterApplier_call Example.full_potential initial_params
      = (None, scme')
    ∧ (∀ k, k ∈ Example.adjustable →
         getattr scme' k = dict_get Example.defaults k)
    ∧ (∀ k, k ∉ Example.adjustable →
         attributes scme' !! k = attributes Example.full_potential !! k).
Proof.
  apply (initial_params_apply Example.full_potential Example.adjustable
           Example.defaults).
  - apply (bool_decide_eq_true_1 _). vm_compute. reflexivity.
  - intros k Hk. apply list_elem_of_In in Hk. simpl in Hk.
    destruct Hk as [<-|[<-|[]]]; apply (bool_decide_eq_true_1 _);
      vm_compute; reflexivity.
  - intros k Hk. apply list_elem_of_In in Hk. simpl in Hk.
    destruct Hk as [<-|[<-|[<-|[]]]]; vm_compute; reflexivity.
  - intros k v Hkv. apply list_elem_of_In in Hkv. simpl in Hkv.
    destruct Hkv as [[= <- <-]|[[= <- <-]|[[= <- <-]|[]]]]; reflexivity.
Defined.

(** ** More on the dataset loader *)

Section loader_more.
Implicit Types (env : Env) (df : DataFrame) (col : list Cell).

(** [process_csv] once the table is read: the column of the paths, its
    cells, then the tags, then the energies. *)
Lemma process_csv_unfold env path_to_csv df :
  read_csv env path_to_csv = inr df →
  process_csv env path_to_csv
  = match dict_get df (path_column df) with
    | None => inl (KeyError (path_column df))
    | Some col =>
        match traverse (cell_to_path env path_to_csv df) col with
        | inl e => inl e
        | inr paths =>
            match dict_get df "tag" with
            | None => inl (KeyError "tag")
            | Some tags =>
                match dict_get df "reference_energy" with
                | None => inl (KeyError "reference_energy")
                | Some energies => inr (paths, tags, energies)
                end
            end
        end
    end.
Proof.
  intros Hread. unfold process_csv, path_column, cell_to_path, df_getitem.
  rewrite Hread. destruct (bool_decide ("path" ∈ dict_keys df)).
  - destruct (dict_get df "path") as [col|]; [|done].
    destruct (traverse _ col); [done|].
    by destruct (dict_get df "tag"), (dict_get df "reference_energy").
  - destruct (dict_get df "file") as [col|]; [|done].
    destruct (traverse _ col); [done|].
    by destruct (dict_get df "tag"), (dict_get df "reference_energy").
Qed.

Lemma path_column_missing df :
  dict_get df (path_column df) = None →
  path_column df = "file" ∧ ("path" ∉ dict_keys df) ∧ ("file" ∉ dict_keys df).
Proof.
  unfold path_column. destruct (bool_decide ("path" ∈ dict_keys df)) eqn:Hpath.
  - apply bool_decide_eq_true in Hpath. intros Hnone%dict_get_None_iff. done.
  - apply bool_decide_eq_false in Hpath. intros Hnone%dict_get_None_iff. done.
Qed.

Lemma cell_to_path_text env path_to_csv df s :
  ∃ p, cell_to_path env path_to_csv df (CStr s) = inr p.
Proof. unfold cell_to_path. destruct (bool_decide _); by eexists. Qed.

Lemma cell_to_path_number env path_to_csv df x :
  cell_to_path env path_to_csv df (CNum x)
  = inl (TypeError "expected str, bytes or os.PathLike object").
Proof. unfold cell_to_path. by destruct (bool_decide _). Qed.

Lemma traverse_length {A B} (f : A → Exception + B) (l : list A) (r : list B) :
  traverse f l = inr r → length r = length l.
Proof.
  revert r. induction l as [|a l IH]; intros r; simpl; [by intros [= <-]|].
  destruct (f a); [done|]. destruct (traverse f l) as [|bs]; [done|].
  intros [= <-]. simpl. by rewrite (IH bs).
Qed.

(** The cells are turned into paths exactly when all of them are text. *)
Lemma traverse_cells env path_to_csv df col :
  (∃ paths, traverse (cell_to_path env path_to_csv df) col = inr paths)
  ↔ forallb is_text col = true.
Proof.
  induction col as [|[s|x] col IH]; simpl.
  - split; [done|]. by eexists.
  - destruct (cell_to_path_text env path_to_csv df s) as [p ->].
    rewrite <- IH. split.
    + intros [paths Hp]. destruct (traverse _ col); [done|]. by eexists.
    + intros [paths ->]. by eexists.
  - rewrite cell_to_path_number. split; [by intros [? ?]|done].
Qed.

(** The first cell that is not text raises [TypeError]. *)
Lemma traverse_number env path_to_csv df (names : list string) x rest :
  traverse (cell_to_path env path_to_csv df) ((CStr <$> names) ++ CNum x :: rest)
  = inl (TypeError "expected str, bytes or os.PathLike object").
Proof.
  induction names as [|s names IH].
  - simpl. by rewrite cell_to_path_number.
  - rewrite fmap_cons, <- app_comm_cons. cbn [traverse].
    destruct (cell_to_path_text env path_to_csv df s) as [p ->].
    by rewrite IH.
Qed.
End loader_more.

(** X8. The loader returns exactly when the table can be read, has a
    [path] column or else a [file] column, all of whose cells are text, and
    has the columns [tag] and [reference_energy]. *)
Theorem process_csv_returns_iff (env : Env) (path_to_csv : Path) :
  (∃ result, process_csv env path_to_csv = inr result)
  ↔ ∃ df col,
      read_csv env path_to_csv = inr df
      ∧ dict_get df (path_column df) = Some col
      ∧ forallb is_text col = true
      ∧ is_Some (dict_get df "tag")
      ∧ is_Some (dict_get df "reference_energy").
Proof.
  split.
  - intros [result Hrun].
    destruct (read_csv env path_to_csv) as [e|df] eqn:Hread.
    { unfold process_csv in Hrun. by rewrite Hread in Hrun. }
    rewrite (process_csv_unfold env path_to_csv df Hread) in Hrun.
    destruct (dict_get df (path_column df)) as [col|] eqn:Hcol; [|done].
    destruct (traverse _ col) as [|paths] eqn:Hpaths; [done|].
    destruct (dict_get df "tag") eqn:Htag; [|done].
    destruct (dict_get df "reference_energy") eqn:Henergy; [|done].
    exists df, col. split_and!; try done.
    apply (traverse_cells env path_to_csv df). by eexists.
  - intros (df & col & Hread & Hcol & Htext & [tags Htag] & [energies Henergy]).
    apply (traverse_cells env path_to_csv df) in Htext as [paths Hpaths].
    exists (paths, tags, energies).
    by rewrite (process_csv_unfold env path_to_csv df Hread), Hcol, Hpaths,
      Htag, Henergy.
Qed.

(** X9. The exception of the loader: a failure of the reader is passed
    on; a table with neither a [path] nor a [file] column raises
    [KeyError] for [file]; the first cell of the column of the paths that is
    not text raises [TypeError]; only then is a missing [tag] column
    reported, and after it a missing [reference_energy] column. *)
Theorem process_csv_exception (env : Env) (path_to_csv : Path) :
  (∀ e, read_csv env path_to_csv = inl e → process_csv env path_to_csv = inl e)
  ∧ (∀ df, read_csv env path_to_csv = inr df →
       ("path" ∉ dict_keys df → "file" ∉ dict_keys df →
          process_csv env path_to_csv = inl (KeyError "file"))
       ∧ (∀ (names : list string) x rest,
            dict_get df (path_column df)
            = Some ((CStr <$> names) ++ CNum x :: rest) →
            process_csv env path_to_csv
            = inl (TypeError "expected str, bytes or os.PathLike object"))
       ∧ (∀ col, dict_get df (path_column df) = Some col →
            forallb is_text col = true →
            (dict_get df "tag" = None →
               process_csv env path_to_csv = inl (KeyError "tag"))
            ∧ (is_Some (dict_get df "tag") →
               dict_get df "reference_energy" = None →
               process_csv env path_to_csv = inl (KeyError "reference_energy")))).
Proof.
  split.
  { intros e Hread. unfold process_csv. by rewrite Hread. }
  intros df Hread. rewrite (process_csv_unfold env path_to_csv df Hread).
  split_and!.
  - intros Hpath Hfile. unfold path_column.
    rewrite bool_decide_eq_false_2 by done. by rewrite dict_get_None.
  - intros names x rest ->. by rewrite traverse_number.
  - intros col -> Htext.
    apply (traverse_cells env path_to_csv df) in Htext as [paths ->].
    split.
    + by intros ->.
    + intros [tags ->] ->. done.
Qed.

(** X10. The three lists returned have one entry per row of the table. *)
Theorem process_csv_lengths (env : Env) (path_to_csv : Path) (df : DataFrame)
    (rows : nat) (paths : list Path) (tags energies : list Cell) :
  read_csv env path_to_csv = inr df →
  (∀ c col, dict_get df c = Some col → length col = rows) →
  process_csv env path_to_csv = inr (paths, tags, energies) →
  length paths = rows ∧ length tags = rows ∧ length energies = rows.
Proof.
  intros Hread Hrows. rewrite (process_csv_unfold env path_to_csv df Hread).
  destruct (dict_get df (path_column df)) as [col|] eqn:Hcol; [|done].
  destruct (traverse _ col) as [|paths'] eqn:Hpaths; [done|].
  destruct (dict_get df "tag") as [tags'|] eqn:Htag; [|done].
  destruct (dict_get df "reference_energy") as [energies'|] eqn:Henergy; [|done].
  intros [= <- <- <-]. split_and!.
  - rewrite (traverse_length _ _ _ Hpaths). by eapply Hrows.
  - by eapply Hrows.
  - by eapply Hrows.
Qed.

Lemma process_csv_lengths_witness :
  length [ {| absolute := false; parts := ["tests"; "a.xyz"] |};
           {| absolute := false; parts := ["tests"; "b.xyz"] |} ] = 2
  ∧ length [CStr "dimer"; CStr "trimer"] = 2
  ∧ length [CNum (Qc_of_Z 1); CNum (Qc_of_Z 2)] = 2.
Proof.
  apply (process_csv_lengths Example.env Example.csv Example.file_table 2).
  - reflexivity.
  - intros c col. simpl. repeat case_decide; intros [= <-]; reflexivity.
  - reflexivity.
Defined.

(** X11. A [file] value that is an absolute path is not rebased: the path
    returned for it is the value itself, whatever the directory of the CSV
    file. *)
Theorem process_csv_absolute_file (env : Env) (path_to_csv : Path) (df : DataFrame)
    (names : list string) (paths : list Path) (tags energies : list Cell) :
  read_csv env path_to_csv = inr df →
  "path" ∉ dict_keys df →
  dict_get df "file" = Some (CStr <$> names) →
  process_csv env path_to_csv = inr (paths, tags, energies) →
  ∀ i fname, names !! i = Some fname →
    absolute (Path_of_str env fname) = true →
    paths !! i = Some (Path_of_str env fname).
Proof.
  intros Hread Hpath Hfile. rewrite (process_csv_unfold env path_to_csv df Hread).
  unfold path_column, cell_to_path. rewrite bool_decide_eq_false_2 by done.
  rewrite Hfile.
  rewrite (traverse_text _
    (fun fname => joinpath (resolve env (parent path_to_csv))
                    (Path_of_str env fname))) by done.
  destruct (dict_get df "tag"); [|done].
  destruct (dict_get df "reference_energy"); [|done].
  intros [= <- _ _] i fname Hi Habs.
  rewrite list_lookup_fmap, Hi. simpl. unfold joinpath. by rewrite Habs.
Qed.

Lemma process_csv_absolute_file_witness :
  [ {| absolute := true; parts := ["data"; "a.xyz"] |};
    {| absolute := false; parts := ["tests"; "b.xyz"] |} ] !! 0
  = Some (Path_of_str Example.absolute_env "/data/a.xyz").
Proof.
  apply (process_csv_absolute_file Example.absolute_env Example.csv
           Example.absolute_table ["/data/a.xyz"; "b.xyz"] _
           [CStr "dimer"; CStr "trimer"]
           [CNum (Qc_of_Z 1); CNum (Qc_of_Z 2)]).
  - reflexivity.
  - apply (bool_decide_eq_false_1 _). vm_compute. reflexivity.
  - reflexivity.
  - reflexivity.
  - reflexivity.
  - reflexivity.
Defined.

(** ** More on the free output directory *)

Section next_free_folder_more.
Implicit Types (fs : FileSystem) (base : Path).

Lemma string_app_self (s t : string) : s = s +:+ t → t = "".
Proof.
  induction s as [|c s IH]; simpl; [done|]. intros [= Heq]. by apply IH.
Qed.

(** What the loop returns is one of the candidates. *)
Lemma next_free_folder_loop_candidate fs base fuel i result :
  next_free_folder_loop fs base fuel i = Some (inr result) →
  ∃ j, candidate base j = inr result.
Proof. by intros [? _]%next_free_folder_loop_free. Qed.

Lemma candidate_inr base i result :
  candidate base i = inr result → name base ≠ "" ∧ result = sibling base i.
Proof.
  unfold candidate, with_name. destruct (decide (name base = "")); [done|].
  by intros [= <-].
Qed.

Lemma sibling_parent base i : parent (sibling base i) = parent base.
Proof. unfold parent, sibling. simpl. by rewrite removelast_last. Qed.

Lemma sibling_name base i :
  name (sibling base i) = name base +:+ "_" +:+ pretty i.
Proof. unfold name, sibling. simpl. by rewrite last_snoc. Qed.

Lemma sibling_not_base base i : sibling base i ≠ base.
Proof.
  intros Heq. apply (f_equal name) in Heq. rewrite sibling_name in Heq.
  symmetry in Heq. by apply string_app_self in Heq.
Qed.
End next_free_folder_more.

(** X12. When the base exists, the path returned is a sibling of it: it has
    the parent and the anchoring of the base, its name is the name of the
    base followed by [_] and a number, and it is not the base. *)
Theorem next_free_folder_sibling (fs : FileSystem) (base : Path) (fuel : nat)
    (result : Path) :
  path_exists fs base = inr true →
  next_free_folder fs fuel base = Some (inr result) →
  parent result = parent base
  ∧ absolute result = absolute base
  ∧ result ≠ base
  ∧ ∃ i : nat, name result = name base +:+ "_" +:+ pretty i.
Proof.
  intros Hbase. unfold next_free_folder. rewrite Hbase. simpl.
  intros [j [_ ->]%candidate_inr]%next_free_folder_loop_candidate.
  split_and!.
  - apply sibling_parent.
  - done.
  - apply sibling_not_base.
  - exists j. apply sibling_name.
Qed.

Lemma next_free_folder_sibling_witness :
  parent (Example.out_n 2) = parent Example.out
  ∧ absolute (Example.out_n 2) = absolute Example.out
  ∧ Example.out_n 2 ≠ Example.out
  ∧ ∃ i : nat, name (Example.out_n 2) = name Example.out +:+ "_" +:+ pretty i.
Proof.
  apply (next_free_folder_sibling Example.output_folders Example.out 4).
  - vm_compute. reflexivity.
  - vm_compute. reflexivity.
Defined.

(** X13. When the base exists and has no name, as [Path(".")] or the root,
    the helper raises the [ValueError] of [with_name] at its first
    candidate. *)
Theorem nameless_base_raises (fs : FileSystem) (base : Path)
    (fuel : nat) :
  path_exists fs base = inr true →
  name base = "" →
  next_free_folder fs (S fuel) base = Some (inl (ValueError "has an empty name")).
Proof.
  intros Hbase Hname. unfold next_free_folder. rewrite Hbase. simpl.
  unfold candidate, with_name. by rewrite decide_True.
Qed.

Lemma nameless_base_raises_witness :
  next_free_folder
    {| entries := [({| absolute := true; parts := [] |}, Reachable)];
       stat_error := fun _ => None |} 1
    {| absolute := true; parts := [] |}
  = Some (inl (ValueError "has an empty name")).
Proof.
  apply (nameless_base_raises
           {| entries := [({| absolute := true; parts := [] |}, Reachable)];
              stat_error := fun _ => None |}
           {| absolute := true; parts := [] |} 0).
  - vm_compute. reflexivity.
  - reflexivity.
Defined.

(** ** More on the fitter *)

Section fitter_more.
Implicit Types (self : Fitter) (minimize : Minimize) (xs : list scalar).

Lemma zip_app_take_drop {A B} (l1 l2 : list A) (ys : list B) :
  zip (l1 ++ l2) ys
  = zip l1 (take (length l1) ys) ++ zip l2 (drop (length l1) ys).
Proof.
  revert ys. induction l1 as [|a l1 IH]; intros [|y ys]; simpl; try done.
  - by destruct l2.
  - by rewrite IH.
Qed.

Lemma zip_under {A} (k : string) (ks : list flat_key) (ys : list A) :
  zip ((k ::.) <$> ks) ys = under k <$> zip ks ys.
Proof.
  revert ys. induction ks as [|q ks IH]; intros [|y ys]; simpl; try done.
  by rewrite IH.
Qed.

(** Any vector, whatever its length, is the vector of leaves of a valid
    mapping whose flat keys are the first flat keys of the dictionary. *)
Lemma refill_any {A} (items : pydict A) (xs : list A) :
  unique_keys (Dict items) = true →
  ∃ items',
    flatten_at [] (Dict items') = zip (flatten_at [] (Dict items)).*1 xs
    ∧ valid_dict items' = true
    ∧ items'.*1 `sublist_of` items.*1.
Proof.
  cut (∀ t : nested A,
         match t with
         | Leaf _ => True
         | Dict items =>
             ∀ xs : list A, unique_keys (Dict items) = true →
             ∃ items',
               flatten_at [] (Dict items') = zip (flatten_at [] (Dict items)).*1 xs
               ∧ valid_dict items' = true
               ∧ items'.*1 `sublist_of` items.*1
         end).
  { intros Hcut. apply (Hcut (Dict items)). }
  clear items xs. induction t as [a|items IH] using nested_ind'; [done|].
  induction IH as [|[k c] items Hc _ IHitems].
  { intros xs _. exists []. split_and!; [by destruct xs|done|constructor]. }
  intros xs [[Hk Hnd]%NoDup_cons [Hvc Hvi]%Forall_cons]%unique_keys_Dict.
  simpl in Hk, Hvc. cbn [snd] in Hc.
  rewrite flatten_cons, fmap_app, under_fst, zip_app_take_drop, zip_under.
  rewrite !length_fmap. set (n := length (flatten_at [] c)).
  destruct (IHitems (drop n xs)) as (items' & Hflat' & Hv' & Hsub').
  { by apply unique_keys_Dict. }
  rewrite <- Hflat'.
  apply valid_dict_inv in Hv' as Hinv'. destruct Hinv' as [Hnd' Hall'].
  assert (k ∉ items'.*1) as Hk'.
  { intros Hin. apply Hk. by eapply elem_of_sublist. }
  assert (∃ c', (flatten_at [] c' = zip (flatten_at [] c).*1 (take n xs)
                 ∧ valid_nested c' = true)
                ∨ zip (flatten_at [] c).*1 (take n xs) = []) as [c' Hc'].
  { destruct c as [a|sub].
    - destruct xs as [|x xs]; [exists (Leaf a); by right|].
      exists (Leaf x). by left.
    - destruct (Hc (take n xs) Hvc) as (sub' & Hsf & Hsv & _).
      exists (Dict sub'). destruct sub' as [|kc sub'].
      + right. by rewrite <- Hsf.
      + left. split; [done|]. by apply valid_nested_dict. }
  destruct Hc' as [[Hcf Hcv]|Hempty].
  - exists ((k, c') :: items'). rewrite flatten_cons, Hcf. split_and!; [done| |].
    + apply valid_dict_intro; [rewrite fmap_cons; by apply NoDup_cons|].
      by apply Forall_cons.
    + rewrite !fmap_cons. by apply sublist_skip.
  - exists items'. rewrite Hempty. split_and!; [done..|].
    rewrite fmap_cons. by apply sublist_cons.
Qed.

(** From any vector, the adapter and the final step of [fit_scipy] rebuild a
    valid mapping whose flat form pairs the captured keys with the vector,
    as far as both go. *)
Lemma rebuild_any self xs :
  unique_keys (Dict (initial_parameters self)) = true →
  ∃ p, unflatten_dict (dict_of_pairs (zip (scipy_keys self) xs)) = p
       ∧ flatten_dict p = zip (scipy_keys self) xs
       ∧ valid_dict p = true.
Proof.
  intros Hv. unfold scipy_keys, dict_keys, flatten_dict.
  destruct (refill_any (initial_parameters self) xs Hv) as (p & Hflat & Hp & _).
  exists p. rewrite <- Hflat. split_and!; [|done..].
  rewrite dict_of_pairs_NoDup by (by apply flatten_dict_NoDup).
  by apply unflatten_flatten.
Qed.

Lemma scipy_keys_empty self :
  scipy_keys self = [] → scipy_x0 self = ret [] ∧ scipy_bounds self = None.
Proof.
  intros Hks. unfold scipy_x0, scipy_bounds. by rewrite Hks.
Qed.
End fitter_more.

(** X14. Without a parameter to fit (the initial mapping has no leaf), the
    backend is handed the empty vector and no bounds, and the fit returns the
    empty mapping whatever the backend answers. *)
Theorem fit_scipy_no_parameters (minimize : Minimize) (self : Fitter) :
  flatten_dict (initial_parameters self) = [] →
  scipy_x0 self = ret []
  ∧ scipy_bounds self = None
  ∧ (fit_scipy minimize self).1 = inr [].
Proof.
  intros Hflat.
  assert (scipy_keys self = []) as Hks by (unfold scipy_keys; by rewrite Hflat).
  destruct (scipy_keys_empty self Hks) as [Hx0 Hb].
  split_and!; [done..|].
  rewrite (fit_scipy_run_from minimize self [] Hx0). simpl. by rewrite Hks.
Qed.

Lemma fit_scipy_no_parameters_witness :
  scipy_x0 (Fitter_init Example.objective [("group", Dict [])] None) = ret []
  ∧ scipy_bounds (Fitter_init Example.objective [("group", Dict [])] None) = None
  ∧ (fit_scipy Example.one_coordinate
       (Fitter_init Example.objective [("group", Dict [])] None)).1 = inr [].
Proof.
  apply (fit_scipy_no_parameters Example.one_coordinate
           (Fitter_init Example.objective [("group", Dict [])] None)).
  reflexivity.
Defined.

(** X15. [fit_scipy] does not check the length of the vector the backend
    answers.  Whatever the vector, what the fit returns, when it returns, is
    a well-formed nested mapping whose flat form pairs the captured keys
    with the coordinates of the vector, in order, as far as both go:
    coordinates beyond the keys are ignored, keys beyond the vector are
    absent.  (The objective function is called on this mapping before it is
    returned; an objective that raises there, as one may on a mapping that
    lacks a key, makes the fit raise, which is outside this model of
    [Fitter].)  The adapter builds the mapping of every candidate vector in
    the same way. *)
Theorem fit_scipy_result_shape (minimize : Minimize) (self : Fitter)
    (opt : pydict scalar) :
  unique_keys (Dict (initial_parameters self)) = true →
  (fit_scipy minimize self).1 = inr opt →
  (∃ x0,
     scipy_x0 self = ret x0
     ∧ valid_dict opt = true
     ∧ flatten_dict opt
       = zip (scipy_keys self)
           (res_x (minimize (f_scipy self) x0 (scipy_bounds self))))
  ∧ (∀ x, ∃ p,
       f_scipy self x = objective_function self p
       ∧ valid_dict p = true
       ∧ flatten_dict p = zip (scipy_keys self) x).
Proof.
  intros Hv Hrun. split.
  - destruct (scipy_x0_returns self) as (x0 & Hx0 & _).
    destruct (rebuild_any self
                (res_x (minimize (f_scipy self) x0 (scipy_bounds self))) Hv)
      as (opt' & Hopt & Hflat & Hvalid).
    rewrite (fit_scipy_run_from minimize self x0 Hx0) in Hrun. simpl in Hrun.
    rewrite Hopt in Hrun. injection Hrun as <-.
    by exists x0.
  - intros x. destruct (rebuild_any self x Hv) as (p & Hp & Hflat & Hvalid).
    exists p. split_and!; [|done..]. unfold f_scipy. by rewrite Hp.
Qed.

Lemma fit_scipy_result_shape_witness :
  (∃ x0,
     scipy_x0 Example.fitter = ret x0
     ∧ valid_dict [("x", Leaf (Qc_of_Z 9)); ("y", Leaf (Qc_of_Z 8))] = true
     ∧ flatten_dict [("x", Leaf (Qc_of_Z 9)); ("y", Leaf (Qc_of_Z 8))]
       = zip (scipy_keys Example.fitter)
           (res_x (Example.three_coordinates (f_scipy Example.fitter) x0
                     (scipy_bounds Example.fitter))))
  ∧ (∀ x, ∃ p,
       f_scipy Example.fitter x = objective_function Example.fitter p
       ∧ valid_dict p = true
       ∧ flatten_dict p = zip (scipy_keys Example.fitter) x).
Proof.
  apply (fit_scipy_result_shape Example.three_coordinates Example.fitter
           [("x", Leaf (Qc_of_Z 9)); ("y", Leaf (Qc_of_Z 8))]).
  - vm_compute. reflexivity.
  - reflexivity.
Defined.

(** X16. When the answer of the backend is, value for value, the list of
    the initial leaves (it answers with its starting point, and the
    conversion of the leaves to an array has changed none of them), the fit
    gives back the initial parameters as they were, when all their leaves
    are scalars. *)
Theorem fit_scipy_fixed_point (minimize : Minimize) (self : Fitter) :
  valid_dict (initial_parameters self) = true →
  res_x (minimize (f_scipy self) (flatten_dict (initial_parameters self)).*2
           (scipy_bounds self))
  = (flatten_dict (initial_parameters self)).*2 →
  (fit_scipy minimize self).1 = inr (initial_parameters self).
Proof.
  intros Hv Hres.
  rewrite (fit_scipy_run minimize self) by (by apply valid_dict_unique_keys).
  simpl. rewrite Hres. unfold scipy_keys, dict_keys. rewrite zip_fst_snd.
  rewrite dict_of_pairs_NoDup by (by apply flatten_dict_NoDup).
  by rewrite unflatten_flatten.
Qed.

Lemma fit_scipy_fixed_point_witness :
  (fit_scipy Example.no_iteration
     (Fitter_init Example.objective Example.grouped None)).1
  = inr Example.grouped.
Proof.
  apply (fit_scipy_fixed_point Example.no_iteration
           (Fitter_init Example.objective Example.grouped None)).
  - vm_compute. reflexivity.
  - reflexivity.
Defined.

(** X17. A bound given for a parameter reaches the backend at the position
    of that parameter: the entry of the bounds array at the index of a flat
    key is the bound the bounds mapping has under that key. *)
Theorem given_bound_reaches_backend (self : Fitter) (i : nat) (k : flat_key)
    (b : bound) :
  unique_keys (Dict (bounds self)) = true →
  scipy_keys self !! i = Some k →
  (k, b) ∈ flatten_dict (bounds self) →
  ∃ bs, scipy_bounds self = Some bs ∧ bs !! i = Some b.
Proof.
  intros Hv Hi Hb. unfold scipy_bounds. rewrite length_map.
  destruct (scipy_keys self) as [|k0 ks] eqn:Hks; [done|].
  eexists. split; [done|]. rewrite list_lookup_fmap, Hi. simpl. f_equal.
  unfold dict_get_default.
  by rewrite (dict_get_elem _ k b) by (by apply flatten_unique_NoDup || done).
Qed.

Lemma given_bound_reaches_backend_witness :
  ∃ bs, scipy_bounds Example.fitter = Some bs
        ∧ bs !! 0 = Some (Some (Qc_of_Z 0), Some (Qc_of_Z 5)).
Proof.
  apply (given_bound_reaches_backend Example.fitter 0 ["x"]).
  - vm_compute. reflexivity.
  - reflexivity.
  - apply list_elem_of_here.
Defined.

(** X18. A fitter built without bounds hands the backend a bounds array
    that leaves every coordinate unbounded on both sides, or no bounds at all
    when there is no coordinate. *)
Theorem no_bounds_unbounded (objective : pydict scalar → scalar)
    (init : pydict scalar) :
  let n := length (flatten_dict init) in
  scipy_bounds (Fitter_init objective init None)
  = if Nat.eqb n 0 then None else Some (replicate n (None, None)).
Proof.
  intros n. unfold scipy_bounds, scipy_keys, dict_keys. simpl.
  rewrite !length_map. fold n. destruct (Nat.eqb n 0); [done|]. f_equal.
  unfold n. rewrite <- (length_fmap fst).
  induction ((flatten_dict init).*1) as [|k ks IH]; [done|].
  simpl. by rewrite IH.
Qed.

(** X19. The starting point and the bounds array handed to the backend fit
    together: the starting point has one coordinate per captured key, and
    the bounds array, when there is one, has one entry per coordinate; there
    is no bounds array exactly when there is no coordinate. *)
Theorem backend_input_shape (self : Fitter) :
  ∃ x0,
    scipy_x0 self = ret x0
    ∧ length x0 = length (scipy_keys self)
    ∧ match scipy_bounds self with
      | None => x0 = []
      | Some bs => length bs = length x0 ∧ x0 ≠ []
      end.
Proof.
  destruct (scipy_x0_returns self) as (x0 & Hx0 & Hlen).
  exists x0. split_and!; [done..|]. unfold scipy_bounds. rewrite length_map.
  destruct (scipy_keys self) as [|k ks]; simpl in *.
  - by destruct x0.
  - rewrite length_map. split; [done|]. by destruct x0.
Qed.

(** X20. What a fit logs agrees with what it returns: the log starts with
    the start record and ends with the time record; it holds the initial
    parameters and bounds as given, the objective at the initial parameters
    as given, the parameters returned and the objective at the parameters
    returned. *)
Theorem fit_scipy_log (minimize : Minimize) (self : Fitter) :
  ∃ opt log,
    fit_scipy minimize self = (inr opt, log)
    ∧ head log = Some (INFO, StartFitting)
    ∧ last log = Some (INFO, TimeTaken)
    ∧ (INFO, InitialParameters (initial_parameters self)) ∈ log
    ∧ (INFO, Bounds (bounds self)) ∈ log
    ∧ (INFO, InitialObjFunc (objective_function self (initial_parameters self)))
      ∈ log
    ∧ (INFO, OptimalParameters opt) ∈ log
    ∧ (INFO, FinalObjectiveFunction (objective_function self opt)) ∈ log.
Proof.
  destruct (scipy_x0_returns self) as (x0 & Hx0 & _).
  eexists _, _. split; [by apply (fit_scipy_run_from minimize self x0)|].
  unfold fit_log. split_and!; [done| |set_solver..].
  by destruct (res_success _).
Qed.
